(** * Smart Data Cleaner: the cleaning pipeline and quality score of [app.py]

    A shallow embedding of the Streamlit script [datacleaning-app/app.py].

    Modelling conventions.
    - A pandas [DataFrame] is an ordered list of named columns.  A column is
      either numeric (dtype [int64]/[float64]) or textual (dtype [object]
      holding strings); a missing cell ([NaN]) is [None].
    - Floating-point numbers are exact rationals ([Q]); rounding is not
      modelled.  The quality score, which the script computes with a numpy
      division that may have a zero divisor, lives in [fval], which adds
      numpy's [nan] and [inf].
    - [pd.to_numeric]'s string parser is a parameter [parse] of the
      development; a concrete decimal parser instantiates it for examples.
    - pandas 2.x semantics: [df[col].fillna(v, inplace=True)] updates the
      frame.
    - An uncaught Python exception is a value of [exn]; the script is a
      computation in a small writer/error monad over the widgets it emits. *)

From Stdlib Require Import String Ascii.
From Stdlib Require Import List Bool Arith ZArith QArith Qround.
From Stdlib Require Import Lia Lqa Permutation Sorted.
Import ListNotations.

Local Open Scope Q_scope.

(** ** numpy scalars for the score arithmetic *)

Inductive fval : Type :=
| FNum (q : Q)
| FNaN
| FInf (negative : bool).

(** [a / b] for a numpy integer scalar [a] and a Python int [b]: true
    division; a zero divisor gives [nan] (0/0) or a signed [inf], with a
    RuntimeWarning and no exception. *)
Definition np_true_divide (a b : Z) : fval :=
  if (b =? 0)%Z then
    if (a =? 0)%Z then FNaN else FInf (a <? 0)%Z
  else FNum (inject_Z a / inject_Z b).

(** [1 - x] *)
Definition f_one_minus (x : fval) : fval :=
  match x with
  | FNum q => FNum (1 - q)
  | FNaN => FNaN
  | FInf s => FInf (negb s)
  end.

(** [100 * x] *)
Definition f_times_100 (x : fval) : fval :=
  match x with
  | FNum q => FNum (100 * q)
  | FNaN => FNaN
  | FInf s => FInf s
  end.

Definition f_is_num (x : fval) : bool :=
  match x with FNum _ => true | _ => false end.

(** Equality of scores up to the representation of the rational. *)
Definition f_eq (x y : fval) : Prop :=
  match x, y with
  | FNum p, FNum q => p == q
  | FNaN, FNaN => True
  | FInf s, FInf t => s = t
  | _, _ => False
  end.

(** ** Data model *)

(** The values of a column, tagged by its dtype. *)
Inductive series : Type :=
| NumCol (cells : list (option Q))
| TextCol (cells : list (option string)).

Record column : Type := mkColumn { name : string; data : series }.

Definition table : Type := list column.

(** A cell as seen across columns (one entry of a row). *)
Inductive cell : Type :=
| Num (q : Q)
| Text (s : string)
| Missing.

Definition row : Type := list cell.

Definition num_cell (o : option Q) : cell :=
  match o with Some q => Num q | None => Missing end.

Definition text_cell (o : option string) : cell :=
  match o with Some s => Text s | None => Missing end.

Definition cells_of (s : series) : list cell :=
  match s with
  | NumCol l => map num_cell l
  | TextCol l => map text_cell l
  end.

Definition series_length (s : series) : nat := length (cells_of s).

Definition is_numeric (s : series) : bool :=
  match s with NumCol _ => true | TextCol _ => false end.

Definition columns (df : table) : list string := map name df.

(** [df.shape]: the number of rows is the length of the index, here the
    length of the first column. *)
Definition nrows (df : table) : nat :=
  match df with
  | [] => O
  | c :: _ => series_length (data c)
  end.

Definition ncols (df : table) : nat := length df.

(** Every column has as many cells as the frame has rows. *)
Definition well_formed (df : table) : Prop :=
  Forall (fun c => series_length (data c) = nrows df) df.

(** ** Quality score (lines 45-47 and 114-116) *)

(** [df.size] *)
Definition size (df : table) : nat := (nrows df * ncols df)%nat.

Definition is_missing (c : cell) : bool :=
  match c with Missing => true | _ => false end.

(** [df[col].isnull().sum()] *)
Definition isnull_sum (s : series) : nat :=
  length (filter is_missing (cells_of s)).

(** [df.isnull().sum().sum()], an int64 scalar of numpy when the frame has a
    column. *)
Definition missing_cells (df : table) : nat :=
  fold_right (fun c acc => (isnull_sum (data c) + acc)%nat) O df.

(** [100 * (1 - missing_cells / total_cells)] *)
Definition quality (df : table) : fval :=
  f_times_100
    (f_one_minus
       (np_true_divide (Z.of_nat (missing_cells df)) (Z.of_nat (size df)))).

(** ** Exceptions *)

Inductive exn : Type :=
| ValueError          (* raised by [pd.to_numeric] on an unparsable value *)
| AttributeError      (* [.dtype] on a frame, when [df[col]] is not a Series *)
| NarrativeError.     (* raised inside [model.generate_content] *)

Inductive result (A : Type) : Type :=
| Ok (a : A)
| Raised (e : exn).

Arguments Ok {A} a.
Arguments Raised {A} e.

(** ** Stage 1: header normalization (line 81) *)

(** Characters removed by [str.strip()] and matched by the regex class
    [\s], restricted to ASCII: tab, LF, VT, FF, CR, FS, GS, RS, US and the
    space. *)
Definition is_space (a : ascii) : bool :=
  let n := nat_of_ascii a in
  ((9 <=? n) && (n <=? 13) || (28 <=? n) && (n <=? 32))%nat.

Fixpoint lstrip (s : string) : string :=
  match s with
  | EmptyString => EmptyString
  | String a s' => if is_space a then lstrip s' else s
  end.

Fixpoint rstrip (s : string) : string :=
  match s with
  | EmptyString => EmptyString
  | String a s' =>
      match rstrip s' with
      | EmptyString => if is_space a then EmptyString else String a EmptyString
      | r => String a r
      end
  end.

Definition strip (s : string) : string := rstrip (lstrip s).

(** [df.columns = df.columns.str.strip()] *)
Definition strip_columns (df : table) : table :=
  map (fun c => mkColumn (strip (name c)) (data c)) df.

(** ** Stage 2: duplicate rows (line 82) *)

Definition cell_eqb (a b : cell) : bool :=
  match a, b with
  | Num p, Num q => Qeq_bool p q
  | Text s, Text t => String.eqb s t
  | Missing, Missing => true
  | _, _ => false
  end.

Fixpoint row_eqb (r1 r2 : row) : bool :=
  match r1, r2 with
  | [], [] => true
  | a :: r1', b :: r2' => cell_eqb a b && row_eqb r1' r2'
  | _, _ => false
  end.

Definition cell_at (s : series) (i : nat) : cell := nth i (cells_of s) Missing.

Definition row_at (df : table) (i : nat) : row :=
  map (fun c => cell_at (data c) i) df.

(** The rows of the frame, in index order. *)
Definition rows (df : table) : list row := map (row_at df) (seq 0 (nrows df)).

(** [duplicated(keep="first")]: one pass over the rows with the set of rows
    already seen; a row is flagged when it is in the set. *)
Fixpoint duplicated_from (seen : list row) (rs : list row) : list bool :=
  match rs with
  | [] => []
  | r :: rs' =>
      if existsb (row_eqb r) seen
      then true :: duplicated_from seen rs'
      else false :: duplicated_from (r :: seen) rs'
  end.

Definition duplicated (df : table) : list bool := duplicated_from [] (rows df).

(** Boolean-mask selection [x[mask]]. *)
Fixpoint take_mask {A : Type} (mask : list bool) (l : list A) : list A :=
  match mask, l with
  | m :: mask', x :: l' =>
      if m then x :: take_mask mask' l' else take_mask mask' l'
  | _, _ => []
  end.

Definition series_take (mask : list bool) (s : series) : series :=
  match s with
  | NumCol l => NumCol (take_mask mask l)
  | TextCol l => TextCol (take_mask mask l)
  end.

Definition select_rows (mask : list bool) (df : table) : table :=
  map (fun c => mkColumn (name c) (series_take mask (data c))) df.

(** [df.drop_duplicates()] is [df[~df.duplicated()]]. *)
Definition drop_duplicates (df : table) : table :=
  select_rows (map negb (duplicated df)) df.

(** ** Stage 3: blank strings become missing (line 83) *)

(** The regex [^\s*$] matches exactly the strings made of whitespace only. *)
Fixpoint is_blank (s : string) : bool :=
  match s with
  | EmptyString => true
  | String a s' => is_space a && is_blank s'
  end.

Definition blank_to_nan (o : option string) : option string :=
  match o with
  | Some s => if is_blank s then None else Some s
  | None => None
  end.

(** [df.replace(r"^\s*$", np.nan, regex=True)]: only strings are matched
    against the pattern; numeric columns are untouched. *)
Definition replace_blank_series (s : series) : series :=
  match s with
  | NumCol l => NumCol l
  | TextCol l => TextCol (map blank_to_nan l)
  end.

Definition replace_blank (df : table) : table :=
  map (fun c => mkColumn (name c) (replace_blank_series (data c))) df.

(** ** Column statistics *)

Section Sorting.
Context {A : Type} (leb : A -> A -> bool).

Fixpoint insert_sorted (x : A) (l : list A) : list A :=
  match l with
  | [] => [x]
  | y :: l' => if leb x y then x :: l else y :: insert_sorted x l'
  end.

(** [np.sort] *)
Fixpoint sort_by (l : list A) : list A :=
  match l with
  | [] => []
  | x :: l' => insert_sorted x (sort_by l')
  end.
End Sorting.

(** The non-missing values of a column ([skipna], [dropna=True]). *)
Fixpoint dropna {A : Type} (l : list (option A)) : list A :=
  match l with
  | [] => []
  | Some x :: l' => x :: dropna l'
  | None :: l' => dropna l'
  end.

Definition sorted_values (l : list (option Q)) : list Q :=
  sort_by Qle_bool (dropna l).

(** [Series.median()]: the middle value of the sorted non-missing values,
    or the mean of the two middle ones; [NaN] when there is none. *)
Definition median (l : list (option Q)) : option Q :=
  let xs := sorted_values l in
  let n := length xs in
  match n with
  | O => None
  | S _ =>
      if Nat.even n
      then Some ((nth (n / 2 - 1) xs 0 + nth (n / 2) xs 0) / 2)
      else Some (nth (n / 2) xs 0)
  end.

(** Linear interpolation in a sorted list at the virtual index [h]. *)
Definition interpolate (xs : list Q) (h : Q) : Q :=
  let i := Z.to_nat (Qfloor h) in
  let g := h - inject_Z (Qfloor h) in
  let lo := nth i xs 0 in
  let hi := nth (Nat.min (S i) (length xs - 1)) xs 0 in
  lo + (hi - lo) * g.

(** [Series.quantile(p)] with the default [interpolation="linear"]: the
    sorted non-missing values interpolated at [p * (n - 1)]; [NaN] when
    there is none. *)
Definition quantile (p : Q) (l : list (option Q)) : option Q :=
  let xs := sorted_values l in
  match xs with
  | [] => None
  | _ :: _ => Some (interpolate xs (p * inject_Z (Z.of_nat (length xs - 1))))
  end.

Definition count_of (s : string) (l : list string) : nat :=
  length (filter (String.eqb s) l).

Definition max_count (l : list string) : nat :=
  fold_right (fun s m => Nat.max (count_of s l) m) O l.

(** [Series.mode()]: the most frequent non-missing values, sorted. *)
Definition mode (l : list (option string)) : list string :=
  let vals := dropna l in
  sort_by String.leb
    (filter (fun s => (count_of s vals =? max_count vals)%nat)
            (nodup string_dec vals)).

(** [Series.fillna(v)]; filling with [NaN] leaves the column as it is. *)
Definition fillna {A : Type} (v : option A) (l : list (option A))
  : list (option A) :=
  map (fun o => match o with Some x => Some x | None => v end) l.

(** ** Stage 4: coercion and imputation, column by column (lines 85-93) *)

(** [df[col]] is a Series when one column bears the label and a frame when
    several do. *)
Inductive selection : Type :=
| OneSeries (s : series)
| SubFrame (cols : list column).

Definition getitem (df : table) (col : string) : selection :=
  match filter (fun c => String.eqb (name c) col) df with
  | [c] => OneSeries (data c)
  | cs => SubFrame cs
  end.

(** [df[col] = s] for an existing label. *)
Definition setitem (df : table) (col : string) (s : series) : table :=
  map (fun c => if String.eqb (name c) col then mkColumn col s else c) df.

Fixpoint for_each (body : table -> string -> result table)
         (cols : list string) (df : table) : result table :=
  match cols with
  | [] => Ok df
  | col :: cols' =>
      match body df col with
      | Ok df' => for_each body cols' df'
      | Raised e => Raised e
      end
  end.

Definition unknown_label : string := "Unknown".

(** Lines 90-93: median for a numeric dtype, first mode or the placeholder
    otherwise. *)
Definition fill_series (s : series) : series :=
  match s with
  | NumCol l => NumCol (fillna (median l) l)
  | TextCol l =>
      TextCol (fillna (Some (match mode l with
                             | m :: _ => m
                             | [] => unknown_label
                             end)) l)
  end.

Definition fill_step (df : table) (col : string) : result table :=
  match getitem df col with
  | OneSeries s => Ok (setitem df col (fill_series s))
  | SubFrame _ => Raised AttributeError
  end.

Section Pipeline.

(** The number parser of [pd.to_numeric]: [None] when the string is not a
    number. *)
Variable parse : string -> option Q.

Fixpoint parse_all (l : list (option string)) : option (list (option Q)) :=
  match l with
  | [] => Some []
  | None :: l' => option_map (cons None) (parse_all l')
  | Some s :: l' =>
      match parse s, parse_all l' with
      | Some q, Some r => Some (Some q :: r)
      | _, _ => None
      end
  end.

(** [pd.to_numeric(s)] with the default [errors="raise"]. *)
Definition to_numeric (s : series) : result series :=
  match s with
  | NumCol l => Ok (NumCol l)
  | TextCol l =>
      match parse_all l with
      | Some r => Ok (NumCol r)
      | None => Raised ValueError
      end
  end.

(** Lines 86-89 on a Series: [try: ... except: pass]. *)
Definition coerce (s : series) : series :=
  match to_numeric s with
  | Ok s' => s'
  | Raised _ => s
  end.

(** Lines 86-89 on the frame; on a sub-frame [pd.to_numeric] raises a
    TypeError, which the bare [except] swallows as well. *)
Definition coerce_step (df : table) (col : string) : table :=
  match getitem df col with
  | OneSeries s =>
      match to_numeric s with
      | Ok s' => setitem df col s'
      | Raised _ => df
      end
  | SubFrame _ => df
  end.

Definition column_step (df : table) (col : string) : result table :=
  fill_step (coerce_step df col) col.

Definition impute_columns (df : table) : result table :=
  for_each column_step (columns df) df.

(** What stage 4 does to one Series. *)
Definition impute_series (s : series) : series := fill_series (coerce s).

(** ** Stage 5: outliers (lines 95-100) *)

Definition Qlt_bool (a b : Q) : bool := negb (Qle_bool b a).

(** The pair [(lower, upper)]; [NaN] bounds are [None]. *)
Definition bounds (l : list (option Q)) : option (Q * Q) :=
  match quantile (1 # 4) l, quantile (3 # 4) l with
  | Some q1, Some q3 =>
      let iqr := q3 - q1 in
      Some (q1 - (3 # 2) * iqr, q3 + (3 # 2) * iqr)
  | _, _ => None
  end.

(** [np.where((x < lower) | (x > upper), median, x)]; a comparison with
    [NaN] on either side is false. *)
Definition clip_outliers (l : list (option Q)) : list (option Q) :=
  match bounds l with
  | Some (lower, upper) =>
      map (fun o =>
             match o with
             | Some v =>
                 if Qlt_bool v lower || Qlt_bool upper v
                 then median l else Some v
             | None => None
             end) l
  | None => l
  end.

Definition clip_series (s : series) : series :=
  match s with
  | NumCol l => NumCol (clip_outliers l)
  | TextCol l => TextCol l
  end.

(** [df.select_dtypes(include=["int64", "float64"]).columns] *)
Definition numeric_cols (df : table) : list string :=
  columns (filter (fun c => is_numeric (data c)) df).

(** The body of the loop; a label of [numeric_cols] selects a numeric
    Series whenever stage 4 has returned. *)
Definition clip_step (df : table) (col : string) : result table :=
  match getitem df col with
  | OneSeries s => Ok (setitem df col (clip_series s))
  | SubFrame _ => Raised AttributeError
  end.

Definition clip_columns (df : table) : result table :=
  for_each clip_step (numeric_cols df) df.

(** ** Stage 6: dead columns (lines 102-104) *)

(** [df.convert_dtypes()] moves the columns to the nullable dtypes and
    keeps every value. *)
Definition convert_dtypes (df : table) : table := df.

(** [df.dropna(axis=1, how="all")] keeps the columns with a non-missing
    cell. *)
Definition dropna_columns (df : table) : table :=
  filter (fun c => Nat.ltb 0 (length (filter (fun x => negb (is_missing x))
                                             (cells_of (data c))))) df.

(** [x != ""] cell by cell; [any] skips the missing cells. *)
Definition not_empty_string (x : cell) : bool :=
  match x with
  | Num _ => true
  | Text s => negb (String.eqb s "")
  | Missing => false
  end.

(** [df.loc[:, (df != "").any(axis=0)]] *)
Definition drop_empty_columns (df : table) : table :=
  filter (fun c => existsb not_empty_string (cells_of (data c))) df.

Definition prune (df : table) : table :=
  drop_empty_columns (dropna_columns (convert_dtypes df)).

(** ** The cleaning pipeline (lines 81-104) *)

Definition stage3 (df : table) : table :=
  replace_blank (drop_duplicates (strip_columns df)).

Definition stage4 (df : table) : result table := impute_columns (stage3 df).

Definition stage5 (df : table) : result table :=
  match stage4 df with
  | Ok df4 => clip_columns df4
  | Raised e => Raised e
  end.

Definition clean (df : table) : result table :=
  match stage5 df with
  | Ok df5 => Ok (prune df5)
  | Raised e => Raised e
  end.

End Pipeline.

(** ** The script (lines 39-192) *)

(** [a - b] on numpy floats. *)
Definition f_sub (a b : fval) : fval :=
  match a, b with
  | FNum p, FNum q => FNum (p - q)
  | FNaN, _ | _, FNaN => FNaN
  | FInf s, FNum _ => FInf s
  | FNum _, FInf t => FInf (negb t)
  | FInf s, FInf t => if Bool.eqb s t then FNaN else FInf s
  end.

(** What the two prompts are built from. *)
Inductive prompt : Type :=
| AnalysisPrompt (shape : nat * nat) (cols : list string)
                 (missing : list nat) (numeric : list bool)
| SummaryPrompt (before after : fval) (cols : list string).

(** The values drawn on the PDF page. *)
Record pdf_report : Type := mkReport {
  total_rows : nat;
  total_columns : nat;
  quality_before : fval;
  quality_after : fval;
  quality_improvement : fval;
  narrative : string
}.

Inductive artifact : Type :=
| PdfFile (r : pdf_report)        (* AI_Data_Cleaning_Report.pdf *)
| CsvFile (df : table).           (* cleaned_data.csv *)

(** The widgets the script puts on the page, in order. *)
Inductive widget : Type :=
| Dataframe (df : table)
| Metric (label : string) (value : fval)
| Write (text : string)
| Success
| DownloadButton (payload : artifact).

(** A run of the script: the widgets emitted so far and either a value or
    the uncaught exception that stopped the run. *)
Definition run (A : Type) : Type := (list widget * result A)%type.

Definition ret {A : Type} (a : A) : run A := ([], Ok a).

Definition bind {A B : Type} (m : run A) (k : A -> run B) : run B :=
  match m with
  | (w, Ok a) => let (w', r) := k a in (w ++ w', r)
  | (w, Raised e) => (w, Raised e)
  end.

Definition emit (w : widget) : run unit := ([w], Ok tt).

Definition lift {A : Type} (r : result A) : run A := ([], r).

Notation "x <- m ;; k" := (bind m (fun x => k))
  (at level 61, m at next level, right associativity).
Notation "m ;;; k" := (bind m (fun _ => k))
  (at level 61, right associativity).

Definition widgets {A : Type} (m : run A) : list widget := fst m.
Definition outcome {A : Type} (m : run A) : result A := snd m.

(** [df.head()] *)
Definition head (df : table) : table :=
  select_rows (repeat true 5) df.

Definition analysis_prompt (df : table) : prompt :=
  AnalysisPrompt (nrows df, ncols df) (columns df)
                 (map (fun c => isnull_sum (data c)) df)
                 (map (fun c => is_numeric (data c)) df).

Section Session.

Variable parse : string -> option Q.

(** [model.generate_content(prompt).text]: the remote call answers or
    raises. *)
Variable generate_content : prompt -> result string.

Definition generate_pdf_report (ai_report : string)
           (before_quality after_quality improvement : fval) (df : table)
  : pdf_report :=
  mkReport (nrows df) (ncols df) before_quality after_quality improvement
           ai_report.

Definition script (df0 : table) : run unit :=
  emit (Dataframe (head df0)) ;;;
  let before_quality := quality df0 in
  emit (Metric "Before Cleaning" before_quality) ;;;
  ai_analysis <- lift (generate_content (analysis_prompt df0)) ;;
  emit (Write ai_analysis) ;;;
  df <- lift (clean parse df0) ;;
  emit Success ;;;
  emit (Dataframe (head df)) ;;;
  let after_quality := quality df in
  let improvement := f_sub after_quality before_quality in
  emit (Metric "Before Cleaning" before_quality) ;;;
  emit (Metric "After Cleaning" after_quality) ;;;
  emit (Metric "Improvement" improvement) ;;;
  ai_report <- lift (generate_content
                       (SummaryPrompt before_quality after_quality
                                      (columns df))) ;;
  emit (Write ai_report) ;;;
  let pdf := generate_pdf_report ai_report before_quality after_quality
                                 improvement df in
  emit (DownloadButton (PdfFile pdf)) ;;;
  emit (DownloadButton (CsvFile df)).

End Session.

(** ** A number parser for the examples *)

Definition digit_of (a : ascii) : option Z :=
  let n := nat_of_ascii a in
  if ((48 <=? n) && (n <=? 57))%nat then Some (Z.of_nat (n - 48)) else None.

Fixpoint parse_digits (acc : Z) (s : string) : option Z :=
  match s with
  | EmptyString => Some acc
  | String a s' =>
      match digit_of a with
      | Some d => parse_digits (10 * acc + d) s'
      | None => None
      end
  end.

(** Decimal integer literals, the fragment of [pd.to_numeric]'s grammar that
    the examples use. *)
Definition parse_integer (s : string) : option Q :=
  match s with
  | EmptyString => None
  | String _ _ => option_map inject_Z (parse_digits 0 s)
  end.

(** ** Example tables *)

(** The table of the worked example, every cell a string. *)
Definition example_text : table :=
  [ mkColumn "Name" (TextCol [Some "Alice"; Some "Alice"; Some "Bob"]);
    mkColumn " Age " (TextCol [Some "30"; Some "30"; Some ""]) ]%string.

(** The same file as [pd.read_csv] loads it: the blank is [NaN] and the
    column is [float64]. *)
Definition example_loaded : table :=
  [ mkColumn "Name" (TextCol [Some "Alice"; Some "Alice"; Some "Bob"]);
    mkColumn " Age " (NumCol [Some 30; Some 30; None]) ]%string.

Definition example_cleaned : table :=
  [ mkColumn "Name" (TextCol [Some "Alice"; Some "Bob"]);
    mkColumn "Age" (NumCol [Some 30; Some 30]) ]%string.

(** A header and no data row. *)
Definition header_only : table :=
  [ mkColumn "Name" (TextCol []); mkColumn "Age" (TextCol []) ]%string.

(** One column without a single value. *)
Definition empty_column : table :=
  [ mkColumn "Name" (TextCol [Some "Alice"; Some "Bob"]);
    mkColumn "Note" (NumCol [None; None]) ]%string.

(** A remote service that is down, and one that answers. *)
Definition service_down (_ : prompt) : result string := Raised NarrativeError.
Definition service_up (_ : prompt) : result string := Ok "ok"%string.
Definition service_second_call_fails (p : prompt) : result string :=
  match p with
  | AnalysisPrompt _ _ _ _ => Ok "ok"%string
  | SummaryPrompt _ _ _ => Raised NarrativeError
  end.

(** ** Auxiliary definitions for the statements and proofs *)

Definition tl_series (s : series) : series :=
  match s with
  | NumCol l => NumCol (tl l)
  | TextCol l => TextCol (tl l)
  end.

Definition tl_table (df : table) : table :=
  map (fun c => mkColumn (name c) (tl_series (data c))) df.

(** The body shared by the loops: replace the Series under a label. *)
Definition update_column (f : series -> series) (df : table) (col : string)
  : result table :=
  match getitem df col with
  | OneSeries s => Ok (setitem df col (f s))
  | SubFrame _ => Raised AttributeError
  end.

Definition map_series (f : series -> series) (df : table) : table :=
  map (fun c => mkColumn (name c) (f (data c))) df.

Definition has_label (col : string) (c : column) : bool :=
  String.eqb (name c) col.

Definition relabel (col : string) (s : series) (c : column) : column :=
  if String.eqb (name c) col then mkColumn col s else c.

(** The numeric reading of one textual cell. *)
Definition parse_cell (parse : string -> option Q) (o : option string)
  : option Q :=
  match o with
  | Some t => parse t
  | None => None
  end.

(** The candidates of [mode]: the distinct values with the highest count. *)
Definition most_frequent (vals : list string) : list string :=
  filter (fun s => (count_of s vals =? max_count vals)%nat)
         (nodup string_dec vals).

(** The value line 93 passes to [fillna]. *)
Definition text_fill_value (l : list (option string)) : string :=
  match mode l with
  | m :: _ => m
  | [] => unknown_label
  end.

(** Some cell of the column is not missing. *)
Definition has_value (s : series) : bool :=
  existsb (fun x => negb (is_missing x)) (cells_of s).

(** No cell of the column is missing. *)
Definition complete (s : series) : bool :=
  forallb (fun x => negb (is_missing x)) (cells_of s).

(** A boolean order read as a relation. *)
Definition lifted {A : Type} (leb : A -> A -> bool) (a b : A) : Prop :=
  leb a b = true.

Definition Qle_b : Q -> Q -> Prop := lifted Qle_bool.

(** [np.where] on one cell, given the bounds and the median. *)
Definition clip_cell (lower upper m : Q) (o : option Q) : option Q :=
  match o with
  | Some v => if Qlt_bool v lower || Qlt_bool upper v then Some m else Some v
  | None => None
  end.


Ltac in_widgets := repeat (first [left; reflexivity|right]).

Ltac widget_cases H :=
  repeat (destruct H as [H|H]; [try discriminate H|]); try contradiction.



(** ** Auxiliary definitions for the further properties *)

(** The first, respectively the last, character is whitespace. *)
Definition starts_with_space (s : string) : bool :=
  match s with
  | EmptyString => false
  | String a _ => is_space a
  end.

Fixpoint ends_with_space (s : string) : bool :=
  match s with
  | EmptyString => false
  | String a EmptyString => is_space a
  | String _ s' => ends_with_space s'
  end.

(** The cell is a string made of whitespace only. *)
Definition blank_cell (x : cell) : bool :=
  match x with
  | Text s => is_blank s
  | _ => false
  end.

(** What stages 4 and 5 do to one Series. *)
Definition clean_series (parse : string -> option Q) (s : series) : series :=
  clip_series (impute_series parse s).

(** The columns of the frame that hold a value. *)
Definition valued_columns (df : table) : table :=
  filter (fun c => has_value (data c)) df.

Definition is_download (w : widget) : bool :=
  match w with
  | DownloadButton _ => true
  | _ => false
  end.


(** Distinctness of a short list of labels, by evaluation. *)
Ltac distinct_labels :=
  simpl; repeat (constructor; [simpl; intuition; discriminate|]);
  constructor.

(** The number of values strictly below, respectively above, [m]. *)
Definition count_below (m : Q) (xs : list Q) : nat :=
  length (filter (fun x => Qlt_bool x m) xs).

Definition count_above (m : Q) (xs : list Q) : nat :=
  length (filter (fun x => Qlt_bool m x) xs).

(** The middle of a sorted list, as [median] takes it. *)
Definition median_of_sorted (xs : list Q) : option Q :=
  let n := length xs in
  match n with
  | O => None
  | S _ =>
      if Nat.even n
      then Some ((nth (n / 2 - 1) xs 0 + nth (n / 2) xs 0) / 2)
      else Some (nth (n / 2) xs 0)
  end.

(** Line 83 on one cell of a row. *)
Definition normalize_cell (x : cell) : cell :=
  match x with
  | Text s => if is_blank s then Missing else Text s
  | _ => x
  end.

(** Two rows that differ by the spelling of a blank only. *)
Definition blank_variants : table :=
  [ mkColumn "Name" (TextCol [Some "Alice"; Some "Alice"]);
    mkColumn "City" (TextCol [Some ""; Some " "]) ]%string.

(** A column survives lines 103-104. *)
Definition live_column (c : column) : bool :=
  has_value (data c) && existsb not_empty_string (cells_of (data c)).

(** [ai_report.split("\n")] (line 167): the pieces between the line
    feeds, one more than there are line feeds. *)
Definition is_newline (a : ascii) : bool := Ascii.eqb a "010"%char.

Fixpoint split_newline (s : string) : list string :=
  match s with
  | EmptyString => [EmptyString]
  | String a s' =>
      if is_newline a then EmptyString :: split_newline s'
      else match split_newline s' with
           | x :: r => String a x :: r
           | [] => [String a EmptyString]
           end
  end.

(** The lines written by [text_obj.textLine] (lines 165-169). *)
Definition report_lines (r : pdf_report) : list string :=
  split_newline (narrative r).

Fixpoint count_newlines (s : string) : nat :=
  match s with
  | EmptyString => O
  | String a s' => ((if is_newline a then 1 else 0) + count_newlines s')%nat
  end.

Fixpoint has_newline (s : string) : bool :=
  match s with
  | EmptyString => false
  | String a s' => is_newline a || has_newline s'
  end.

(** * Properties *)

(** ** Sorting *)

Section SortingFacts.
Context {A : Type} (leb : A -> A -> bool).
Hypothesis leb_total : forall a b, leb a b = true \/ leb b a = true.
Hypothesis leb_trans :
  forall a b c, leb a b = true -> leb b c = true -> leb a c = true.

Lemma insert_sorted_perm (x : A) (l : list A) :
  Permutation (x :: l) (insert_sorted leb x l).
Proof.
  induction l as [|y l IH]; simpl.
  - apply Permutation_refl.
  - destruct (leb x y).
    + apply Permutation_refl.
    + eapply perm_trans; [apply perm_swap|].
      apply perm_skip, IH.
Qed.

Lemma sort_by_perm (l : list A) : Permutation l (sort_by leb l).
Proof.
  induction l as [|x l IH]; simpl.
  - apply perm_nil.
  - eapply perm_trans; [apply perm_skip, IH|].
    apply insert_sorted_perm.
Qed.

Lemma sort_by_length (l : list A) : length (sort_by leb l) = length l.
Proof. symmetry. apply Permutation_length, sort_by_perm. Qed.

Lemma sort_by_In (x : A) (l : list A) : In x (sort_by leb l) <-> In x l.
Proof.
  split; intro H.
  - eapply Permutation_in; [apply Permutation_sym, sort_by_perm|exact H].
  - eapply Permutation_in; [apply sort_by_perm|exact H].
Qed.

Lemma insert_sorted_sorted (x : A) (l : list A) :
  StronglySorted (lifted leb) l -> StronglySorted (lifted leb) (insert_sorted leb x l).
Proof.
  induction 1 as [|y l Hs IH Hall]; simpl.
  - constructor; constructor.
  - destruct (leb x y) eqn:E.
    + constructor.
      * constructor; assumption.
      * constructor; [exact E|].
        eapply Forall_impl; [|exact Hall].
        intros z Hz. unfold lifted in *. eapply leb_trans; eassumption.
    + constructor; [exact IH|].
      assert (Hyx : lifted leb y x).
      { destruct (leb_total x y) as [H|H]; [congruence|exact H]. }
      rewrite Forall_forall. intros z Hz.
      apply (Permutation_in _ (Permutation_sym (insert_sorted_perm x l)))
        in Hz.
      destruct Hz as [Hz|Hz]; [subst z; exact Hyx|].
      rewrite Forall_forall in Hall. apply Hall, Hz.
Qed.

Lemma sort_by_sorted (l : list A) : StronglySorted (lifted leb) (sort_by leb l).
Proof.
  induction l as [|x l IH]; simpl.
  - constructor.
  - apply insert_sorted_sorted, IH.
Qed.

End SortingFacts.

(** ** The order on strings *)

Lemma ascii_compare_lt_trans (a b c : ascii) :
  Ascii.compare a b = Lt -> Ascii.compare b c = Lt -> Ascii.compare a c = Lt.
Proof.
  unfold Ascii.compare. rewrite !N.compare_lt_iff. apply N.lt_trans.
Qed.

Lemma string_compare_lt_trans (s1 : string) :
  forall s2 s3,
    String.compare s1 s2 = Lt -> String.compare s2 s3 = Lt ->
    String.compare s1 s3 = Lt.
Proof.
  induction s1 as [|a s1 IH]; intros [|b s2] [|c s3]; simpl;
    try discriminate; try reflexivity.
  destruct (Ascii.compare a b) eqn:Eab; try discriminate;
    destruct (Ascii.compare b c) eqn:Ebc; try discriminate; intros H1 H2.
  - apply Ascii.compare_eq_iff in Eab, Ebc. subst.
    replace (Ascii.compare c c) with Eq
      by (symmetry; unfold Ascii.compare; apply N.compare_refl).
    eapply IH; eassumption.
  - apply Ascii.compare_eq_iff in Eab. subst. rewrite Ebc. reflexivity.
  - apply Ascii.compare_eq_iff in Ebc. subst. rewrite Eab. reflexivity.
  - rewrite (ascii_compare_lt_trans _ _ _ Eab Ebc). reflexivity.
Qed.

Lemma string_leb_trans (s1 s2 s3 : string) :
  String.leb s1 s2 = true -> String.leb s2 s3 = true ->
  String.leb s1 s3 = true.
Proof.
  unfold String.leb.
  destruct (String.compare s1 s2) eqn:E12; try discriminate;
    destruct (String.compare s2 s3) eqn:E23; try discriminate; intros _ _.
  - apply String.compare_eq_iff in E12, E23. subst.
    pose proof (String.compare_antisym s3 s3) as H.
    destruct (String.compare s3 s3); simpl in H; congruence.
  - apply String.compare_eq_iff in E12. subst. rewrite E23. reflexivity.
  - apply String.compare_eq_iff in E23. subst. rewrite E12. reflexivity.
  - rewrite (string_compare_lt_trans _ _ _ E12 E23). reflexivity.
Qed.

(** ** The order on rationals *)

Lemma Qle_bool_total (a b : Q) : Qle_bool a b = true \/ Qle_bool b a = true.
Proof.
  rewrite !Qle_bool_iff.
  destruct (Qlt_le_dec a b) as [H|H]; [left; apply Qlt_le_weak, H|right; exact H].
Qed.

Lemma Qle_bool_trans (a b c : Q) :
  Qle_bool a b = true -> Qle_bool b c = true -> Qle_bool a c = true.
Proof. rewrite !Qle_bool_iff. apply Qle_trans. Qed.

(** ** Quality score *)

Lemma isnull_sum_le (s : series) : (isnull_sum s <= series_length s)%nat.
Proof. unfold isnull_sum, series_length. apply filter_length_le. Qed.

Lemma missing_cells_bound (n : nat) (df : table) :
  Forall (fun c => series_length (data c) = n) df ->
  (missing_cells df <= n * length df)%nat.
Proof.
  induction 1 as [|c df Hc _ IH]; simpl.
  - lia.
  - pose proof (isnull_sum_le (data c)). lia.
Qed.

Lemma missing_cells_le_size (df : table) :
  well_formed df -> (missing_cells df <= size df)%nat.
Proof. intro H. apply missing_cells_bound, H. Qed.

Lemma ratio_in_unit_interval (m t : nat) :
  (m <= t)%nat -> (t <> 0)%nat ->
  0 <= inject_Z (Z.of_nat m) / inject_Z (Z.of_nat t) <= 1.
Proof.
  intros Hle Ht.
  assert (Hpos : 0 < inject_Z (Z.of_nat t)).
  { change 0 with (inject_Z 0). rewrite <- Zlt_Qlt. lia. }
  split.
  - apply Qle_shift_div_l; [exact Hpos|].
    rewrite Qmult_0_l. change 0 with (inject_Z 0). rewrite <- Zle_Qle. lia.
  - apply Qle_shift_div_r; [exact Hpos|].
    rewrite Qmult_1_l. rewrite <- Zle_Qle. lia.
Qed.

(** C2 (amended).  On a table with at least one cell the score is the number
    100 * (1 - missing / total), between 0 and 100; on a table with columns
    and no cell the division 0/0 is carried out, nothing is raised, and the
    score is NaN, not 100. *)
Theorem quality_defined_iff_cells (df : table) (Hwf : well_formed df) :
  (df <> [] -> size df = 0%nat -> quality df = FNaN) /\
  (size df <> 0%nat ->
   exists q, quality df = FNum q /\
     q == 100 * (1 - inject_Z (Z.of_nat (missing_cells df))
                      / inject_Z (Z.of_nat (size df))) /\
     0 <= q /\ q <= 100).
Proof.
  pose proof (missing_cells_le_size df Hwf) as Hle.
  unfold quality, np_true_divide. split; [intros _ Hs|intro Hs].
  - rewrite Hs in *. assert (missing_cells df = 0%nat) as -> by lia.
    reflexivity.
  - destruct (Z.of_nat (size df) =? 0)%Z eqn:E.
    + apply Z.eqb_eq in E. lia.
    + simpl. eexists. split; [reflexivity|]. split; [reflexivity|].
      pose proof (ratio_in_unit_interval _ _ Hle Hs) as [H0 H1].
      split; lra.
Qed.

Lemma example_loaded_well_formed : well_formed example_loaded.
Proof. repeat constructor. Qed.

Lemma quality_defined_iff_cells_witness :
  well_formed example_loaded /\
  (example_loaded <> [] -> size example_loaded = 0%nat ->
   quality example_loaded = FNaN) /\
  (size example_loaded <> 0%nat ->
   exists q, quality example_loaded = FNum q /\
     q == 100 * (1 - inject_Z (Z.of_nat (missing_cells example_loaded))
                      / inject_Z (Z.of_nat (size example_loaded))) /\
     0 <= q /\ q <= 100).
Proof.
  split.
  - exact example_loaded_well_formed.
  - apply (quality_defined_iff_cells example_loaded).
    repeat constructor.
Defined.

(** C2 as stated fails: a header without data rows has zero cells and its
    score is NaN, not 100. *)
Lemma quality_zero_cells_not_100 :
  well_formed header_only /\ size header_only = 0%nat /\
  quality header_only = FNaN /\ ~ f_eq (quality header_only) (FNum 100).
Proof.
  split; [repeat constructor|].
  split; [reflexivity|].
  split; [reflexivity|].
  simpl. intros [].
Qed.

(** ** Duplicate rows *)

Lemma cell_eqb_refl (a : cell) : cell_eqb a a = true.
Proof.
  destruct a; simpl; auto.
  - apply Qeq_bool_refl.
  - apply String.eqb_refl.
Qed.

Lemma cell_eqb_trans (a b c : cell) :
  cell_eqb a b = true -> cell_eqb b c = true -> cell_eqb a c = true.
Proof.
  destruct a, b, c; simpl; try discriminate; auto.
  - apply Qeq_bool_trans.
  - rewrite !String.eqb_eq. congruence.
Qed.

Lemma row_eqb_refl (r : row) : row_eqb r r = true.
Proof.
  induction r as [|a r IH]; simpl; auto.
  rewrite cell_eqb_refl, IH. reflexivity.
Qed.

Lemma row_eqb_trans (r1 : row) :
  forall r2 r3,
    row_eqb r1 r2 = true -> row_eqb r2 r3 = true -> row_eqb r1 r3 = true.
Proof.
  induction r1 as [|a r1 IH]; intros [|b r2] [|c r3]; simpl;
    try discriminate; auto.
  rewrite !andb_true_iff. intros [H1 H2] [H3 H4]. split.
  - eapply cell_eqb_trans; eassumption.
  - eapply IH; eassumption.
Qed.

Lemma existsb_row_eqb_trans (r r' : row) (seen : list row) :
  row_eqb r r' = true -> existsb (row_eqb r') seen = true ->
  existsb (row_eqb r) seen = true.
Proof.
  intros H. rewrite !existsb_exists. intros [x [Hx Hr]].
  exists x. split; [exact Hx|]. eapply row_eqb_trans; eassumption.
Qed.

Lemma duplicated_from_length (rs : list row) :
  forall seen, length (duplicated_from seen rs) = length rs.
Proof.
  induction rs as [|r rs IH]; intro seen; simpl; auto.
  destruct (existsb (row_eqb r) seen); simpl; rewrite IH; reflexivity.
Qed.

(** A row is flagged exactly when it equals a row seen before the pass or an
    earlier row of the pass. *)
Lemma duplicated_from_nth (rs : list row) :
  forall seen i,
    (i < length rs)%nat ->
    nth i (duplicated_from seen rs) false = true <->
    (existsb (row_eqb (nth i rs [])) seen = true \/
     exists j, (j < i)%nat /\ row_eqb (nth i rs []) (nth j rs []) = true).
Proof.
  induction rs as [|r rs IH]; intros seen i Hi; simpl in Hi; [lia|].
  simpl duplicated_from.
  destruct (existsb (row_eqb r) seen) eqn:E; destruct i as [|i]; simpl nth.
  - split; auto.
  - rewrite (IH seen i) by lia. split.
    + intros [H|[j [Hj H]]]; [left; exact H|right].
      exists (S j). split; [lia|exact H].
    + intros [H|[[|j] [Hj H]]]; [left; exact H| |].
      * left. simpl in H. eapply existsb_row_eqb_trans; eassumption.
      * right. exists j. split; [lia|exact H].
  - split; [discriminate|].
    intros [H|[j [Hj _]]]; [congruence|lia].
  - rewrite (IH (r :: seen) i) by lia. simpl existsb.
    rewrite orb_true_iff. split.
    + intros [[H|H]|[j [Hj H]]].
      * right. exists O. split; [lia|exact H].
      * left; exact H.
      * right. exists (S j). split; [lia|exact H].
    + intros [H|[[|j] [Hj H]]].
      * left; right; exact H.
      * left; left; exact H.
      * right. exists j. split; [lia|exact H].
Qed.

(** After the flagged rows are removed, no row is flagged. *)
Lemma duplicated_from_idempotent (rs : list row) :
  forall seen,
    let kept := take_mask (map negb (duplicated_from seen rs)) rs in
    duplicated_from seen kept = repeat false (length kept).
Proof.
  induction rs as [|r rs IH]; intro seen; simpl; auto.
  destruct (existsb (row_eqb r) seen) eqn:E; simpl.
  - apply IH.
  - rewrite E. f_equal. apply IH.
Qed.

(** *** Rows of a selection *)

Lemma cells_of_tl (s : series) : cells_of (tl_series s) = tl (cells_of s).
Proof. destruct s as [[|x l]|[|x l]]; reflexivity. Qed.

Lemma nth_S_tl {A : Type} (l : list A) (i : nat) (d : A) :
  nth (S i) l d = nth i (tl l) d.
Proof. destruct l; simpl; [destruct i|]; reflexivity. Qed.

Lemma row_at_S (df : table) (i : nat) :
  row_at df (S i) = row_at (tl_table df) i.
Proof.
  unfold row_at, tl_table. rewrite map_map. apply map_ext.
  intro c. unfold cell_at. simpl. rewrite cells_of_tl. apply nth_S_tl.
Qed.

Lemma series_length_tl (s : series) :
  series_length (tl_series s) = pred (series_length s).
Proof.
  unfold series_length. rewrite cells_of_tl. destruct (cells_of s); reflexivity.
Qed.

Lemma well_formed_all (df : table) (n : nat) :
  well_formed df -> nrows df = n ->
  Forall (fun c => series_length (data c) = n) df.
Proof. intros H <-. exact H. Qed.

Lemma all_well_formed (df : table) (n : nat) :
  Forall (fun c => series_length (data c) = n) df ->
  well_formed df /\ (df <> [] -> nrows df = n).
Proof.
  intro H. destruct df as [|c df].
  - split; [constructor|congruence].
  - assert (E : nrows (c :: df) = n) by (inversion H; assumption).
    split; [|intros _; exact E]. unfold well_formed. rewrite E. exact H.
Qed.

Lemma tl_table_all (df : table) (n : nat) :
  Forall (fun c => series_length (data c) = S n) df ->
  Forall (fun c => series_length (data c) = n) (tl_table df).
Proof.
  intro H. unfold tl_table. rewrite Forall_map.
  eapply Forall_impl; [|exact H]. intros c Hc. simpl.
  rewrite series_length_tl, Hc. reflexivity.
Qed.

Lemma rows_S (df : table) (n : nat) :
  nrows df = S n -> nrows (tl_table df) = n ->
  rows df = row_at df 0 :: rows (tl_table df).
Proof.
  intros H H'. unfold rows. rewrite H, H'. simpl. f_equal.
  rewrite <- seq_shift, map_map. apply map_ext. intro i. apply row_at_S.
Qed.

Lemma cells_of_take (mask : list bool) (s : series) :
  cells_of (series_take mask s) = take_mask mask (cells_of s).
Proof.
  destruct s as [l|l]; simpl; revert l;
    induction mask as [|m mask IH]; intros [|x l]; simpl; auto;
    destruct m; simpl; rewrite ?IH; reflexivity.
Qed.

Lemma take_mask_nil {A : Type} (mask : list bool) :
  take_mask mask (@nil A) = [].
Proof. destruct mask; reflexivity. Qed.

Lemma take_mask_length {A : Type} (mask : list bool) :
  forall l : list A,
    length l = length mask ->
    length (take_mask mask l) = length (filter (fun b => b) mask).
Proof.
  induction mask as [|m mask IH]; intros [|x l]; simpl; try discriminate; auto.
  intro H. destruct m; simpl; rewrite IH by lia; reflexivity.
Qed.

Lemma select_rows_all (mask : list bool) (df : table) :
  Forall (fun c => series_length (data c) = length mask) df ->
  Forall (fun c => series_length (data c)
                   = length (filter (fun b => b) mask))
         (select_rows mask df).
Proof.
  intro H. unfold select_rows. rewrite Forall_map.
  eapply Forall_impl; [|exact H]. intros c Hc. simpl.
  unfold series_length in *. rewrite cells_of_take.
  apply take_mask_length, Hc.
Qed.

Lemma nrows_nonempty (df : table) (n : nat) :
  nrows df = S n -> df <> [].
Proof. destruct df; simpl; [discriminate|congruence]. Qed.

Lemma select_rows_skip (mask : list bool) (df : table) :
  select_rows (false :: mask) df = select_rows mask (tl_table df).
Proof.
  unfold select_rows, tl_table. rewrite map_map. apply map_ext.
  intro c. simpl. f_equal.
  destruct (data c) as [[|x l]|[|x l]]; simpl; rewrite ?take_mask_nil;
    reflexivity.
Qed.

Lemma select_rows_keep_tl (mask : list bool) (df : table) (n : nat) :
  Forall (fun c => series_length (data c) = S n) df ->
  tl_table (select_rows (true :: mask) df) = select_rows mask (tl_table df).
Proof.
  intro H. unfold select_rows, tl_table. rewrite !map_map.
  apply map_ext_in. intros c Hc. simpl. f_equal.
  rewrite Forall_forall in H. specialize (H c Hc).
  destruct (data c) as [[|x l]|[|x l]]; simpl in *; try discriminate;
    reflexivity.
Qed.

Lemma select_rows_keep_row (mask : list bool) (df : table) (n : nat) :
  Forall (fun c => series_length (data c) = S n) df ->
  row_at (select_rows (true :: mask) df) 0 = row_at df 0.
Proof.
  intro H. unfold select_rows, row_at. rewrite map_map.
  apply map_ext_in. intros c Hc. simpl.
  rewrite Forall_forall in H. specialize (H c Hc).
  unfold cell_at. rewrite cells_of_take. unfold series_length in H.
  destruct (cells_of (data c)); simpl in *; [discriminate|reflexivity].
Qed.

Lemma select_rows_nonempty (mask : list bool) (df : table) :
  df <> [] -> select_rows mask df <> [].
Proof. destruct df; simpl; congruence. Qed.

Lemma tl_table_nonempty (df : table) : df <> [] -> tl_table df <> [].
Proof. destruct df; simpl; congruence. Qed.

(** The rows of [df[mask]] are the rows of [df] that the mask selects, in
    their order. *)
Lemma rows_select_rows (mask : list bool) :
  forall df,
    Forall (fun c => series_length (data c) = length mask) df ->
    rows (select_rows mask df) = take_mask mask (rows df).
Proof.
  induction mask as [|m mask IH]; intros df H.
  - destruct df as [|c df]; [reflexivity|].
    unfold rows. inversion H as [|? ? Hc Hdf]; subst. simpl.
    unfold series_length in *. rewrite cells_of_take.
    destruct (cells_of (data c)); [reflexivity|discriminate].
  - destruct df as [|c0 df0] eqn:Edf; [reflexivity|]. rewrite <- Edf in *.
    assert (Hne : df <> []) by (subst; discriminate).
    simpl length in H.
    destruct (all_well_formed _ _ H) as [_ Hn]. specialize (Hn Hne).
    pose proof (tl_table_all _ _ H) as Htl.
    destruct (all_well_formed _ _ Htl) as [_ Hntl].
    specialize (Hntl (tl_table_nonempty _ Hne)).
    rewrite (rows_S df _ Hn Hntl). destruct m.
    + pose proof (select_rows_all (true :: mask) df H) as Hsel.
      simpl in Hsel.
      destruct (all_well_formed _ _ Hsel) as [_ Hnsel].
      specialize (Hnsel (select_rows_nonempty _ _ Hne)).
      pose proof (select_rows_all mask _ Htl) as Hsel'.
      destruct (all_well_formed _ _ Hsel') as [_ Hnsel'].
      specialize (Hnsel' (select_rows_nonempty _ _ (tl_table_nonempty _ Hne))).
      rewrite (rows_S _ _ Hnsel).
      * rewrite (select_rows_keep_row _ _ _ H).
        rewrite (select_rows_keep_tl _ _ _ H).
        simpl. f_equal. apply IH, Htl.
      * rewrite (select_rows_keep_tl _ _ _ H). exact Hnsel'.
    + rewrite select_rows_skip. simpl. apply IH, Htl.
Qed.

Lemma rows_length (df : table) : length (rows df) = nrows df.
Proof. unfold rows. rewrite length_map, length_seq. reflexivity. Qed.

Lemma rows_nth (df : table) (i : nat) :
  (i < nrows df)%nat -> nth i (rows df) [] = row_at df i.
Proof.
  intro H. unfold rows.
  rewrite (nth_indep _ [] (row_at df 0)) by (rewrite length_map, length_seq; exact H).
  rewrite map_nth. rewrite seq_nth by exact H. reflexivity.
Qed.

Lemma duplicated_length (df : table) : length (duplicated df) = nrows df.
Proof. unfold duplicated. rewrite duplicated_from_length. apply rows_length. Qed.

Lemma columns_select_rows (mask : list bool) (df : table) :
  columns (select_rows mask df) = columns df.
Proof. unfold columns, select_rows. rewrite map_map. reflexivity. Qed.

Lemma drop_duplicates_mask_all (df : table) :
  well_formed df ->
  Forall (fun c => series_length (data c)
                   = length (map negb (duplicated df))) df.
Proof.
  intro H. rewrite length_map, duplicated_length. exact H.
Qed.

Lemma take_mask_all {A : Type} (l : list A) :
  take_mask (repeat true (length l)) l = l.
Proof. induction l; simpl; congruence. Qed.

Lemma select_rows_everything (df : table) (n : nat) :
  Forall (fun c => series_length (data c) = n) df ->
  select_rows (repeat true n) df = df.
Proof.
  intro H. unfold select_rows. rewrite <- (map_id df) at 2.
  apply map_ext_in. intros c Hc. rewrite Forall_forall in H.
  specialize (H c Hc). destruct c as [nm [l|l]]; simpl in *;
    unfold series_length in H; simpl in H; rewrite length_map in H;
    subst n; rewrite take_mask_all; reflexivity.
Qed.

Lemma map_negb_repeat_false (n : nat) :
  map negb (repeat false n) = repeat true n.
Proof. induction n; simpl; congruence. Qed.



(** C9.  Removing duplicates from a table without duplicates changes
    nothing: the second pass returns the table of the first. *)
Theorem drop_duplicates_idempotent (df : table) (Hwf : well_formed df) :
  drop_duplicates (drop_duplicates df) = drop_duplicates df.
Proof.
  pose proof (drop_duplicates_mask_all df Hwf) as Hall.
  pose proof (select_rows_all _ _ Hall) as Hsel.
  pose proof (rows_select_rows _ _ Hall) as Hrows.
  fold (drop_duplicates df) in Hsel, Hrows.
  assert (Hd : duplicated (drop_duplicates df)
               = repeat false (nrows (drop_duplicates df))).
  { unfold duplicated at 1. rewrite <- rows_length, Hrows.
    apply (duplicated_from_idempotent (rows df) []). }
  unfold drop_duplicates at 1. rewrite Hd, map_negb_repeat_false.
  apply select_rows_everything.
  destruct (drop_duplicates df) as [|c d] eqn:E; [constructor|].
  rewrite <- E in *.
  destruct (all_well_formed _ _ Hsel) as [_ Hn].
  rewrite Hn by (rewrite E; discriminate). exact Hsel.
Qed.

Lemma drop_duplicates_idempotent_witness :
  well_formed example_loaded /\
  drop_duplicates (drop_duplicates example_loaded)
  = drop_duplicates example_loaded.
Proof.
  split; [repeat constructor|].
  apply (drop_duplicates_idempotent example_loaded).
  repeat constructor.
Defined.

(** ** The loops over column labels *)

Lemma has_label_relabel (col : string) (s : series) (c : column) :
  has_label col (relabel col s c) = has_label col c.
Proof.
  unfold has_label, relabel. destruct (String.eqb (name c) col) eqn:E.
  - simpl. apply String.eqb_refl.
  - exact E.
Qed.

Lemma filter_relabel (col : string) (s : series) (df : table) :
  filter (has_label col) (map (relabel col s) df)
  = map (relabel col s) (filter (has_label col) df).
Proof.
  induction df as [|c df IH]; simpl; auto.
  rewrite has_label_relabel. destruct (has_label col c); simpl; congruence.
Qed.

Lemma getitem_series (df : table) (col : string) (s : series) :
  getitem df col = OneSeries s <->
  exists c, filter (has_label col) df = [c] /\ data c = s.
Proof.
  unfold getitem. fold (has_label col).
  destruct (filter (has_label col) df) as [|c [|c' l]]; split;
    try discriminate.
  - intros [c [H _]]. discriminate.
  - intro H. exists c. split; [reflexivity|congruence].
  - intros [c0 [H <-]]. congruence.
  - intros [c0 [H _]]. discriminate.
Qed.

Lemma getitem_setitem (df : table) (col : string) (s s' : series) :
  getitem df col = OneSeries s -> getitem (setitem df col s') col = OneSeries s'.
Proof.
  rewrite !getitem_series. intros [c [H _]].
  exists (relabel col s' c). split.
  - unfold setitem. change (fun c0 => if String.eqb (name c0) col
                                       then mkColumn col s' else c0)
      with (relabel col s'). rewrite filter_relabel, H. reflexivity.
  - assert (Hc : has_label col c = true).
    { assert (In c (filter (has_label col) df)) as Hin
          by (rewrite H; left; reflexivity).
      apply filter_In in Hin. apply Hin. }
    unfold relabel. unfold has_label in Hc. rewrite Hc. reflexivity.
Qed.

Lemma setitem_setitem (df : table) (col : string) (s s' : series) :
  setitem (setitem df col s) col s' = setitem df col s'.
Proof.
  unfold setitem. rewrite map_map. apply map_ext. intro c.
  destruct (String.eqb (name c) col) eqn:E; simpl.
  - rewrite String.eqb_refl. reflexivity.
  - rewrite E. reflexivity.
Qed.

Lemma columns_setitem (df : table) (col : string) (s : series) :
  columns (setitem df col s) = columns df.
Proof.
  unfold columns, setitem. rewrite map_map. apply map_ext. intro c.
  destruct (String.eqb (name c) col) eqn:E; simpl; auto.
  apply String.eqb_eq in E. auto.
Qed.

Lemma columns_map_series (f : series -> series) (df : table) :
  columns (map_series f df) = columns df.
Proof. unfold columns, map_series. rewrite map_map. reflexivity. Qed.

Lemma unique_label (df : table) :
  NoDup (columns df) ->
  forall c c', In c df -> In c' df -> name c = name c' -> c = c'.
Proof.
  induction df as [|c0 df IH]; simpl; intros Hnd c c' Hc Hc' E; [easy|].
  inversion Hnd as [|? ? Hnot Hnd']; subst.
  destruct Hc as [<-|Hc], Hc' as [<-|Hc']; auto.
  - exfalso. apply Hnot. rewrite E. apply in_map, Hc'.
  - exfalso. apply Hnot. rewrite <- E. apply in_map, Hc.
Qed.

Lemma filter_unique_label (df : table) :
  NoDup (columns df) ->
  forall c, In c df -> filter (has_label (name c)) df = [c].
Proof.
  induction df as [|c0 df IH]; simpl; intros Hnd c Hc; [easy|].
  inversion Hnd as [|? ? Hnot Hnd']; subst.
  unfold has_label at 1. destruct (String.eqb (name c0) (name c)) eqn:E.
  - apply String.eqb_eq in E.
    assert (c0 = c) as ->.
    { apply (unique_label (c0 :: df) Hnd); simpl; auto. }
    f_equal. destruct (filter (has_label (name c)) df) as [|x l] eqn:F; auto.
    exfalso. assert (In x (filter (has_label (name c)) df)) as Hx
        by (rewrite F; left; reflexivity).
    apply filter_In in Hx. destruct Hx as [Hx Hl].
    apply String.eqb_eq in Hl. apply Hnot. rewrite <- Hl. apply in_map, Hx.
  - destruct Hc as [<-|Hc]; [rewrite String.eqb_refl in E; discriminate|].
    apply IH; assumption.
Qed.

Lemma getitem_unique (df : table) (c : column) :
  NoDup (columns df) -> In c df -> getitem df (name c) = OneSeries (data c).
Proof.
  intros Hnd Hc. apply getitem_series. exists c.
  split; [apply filter_unique_label; assumption|reflexivity].
Qed.

(** With distinct labels the loop returns, and has applied [f] once to each
    listed column. *)
Lemma for_each_update_column (f : series -> series) (cols : list string) :
  forall df,
    NoDup (columns df) -> NoDup cols -> incl cols (columns df) ->
    for_each (update_column f) cols df
    = Ok (map (fun c => if existsb (String.eqb (name c)) cols
                        then mkColumn (name c) (f (data c)) else c) df).
Proof.
  induction cols as [|col cols IH]; intros df Hnd Hcols Hincl.
  - simpl. rewrite map_id. reflexivity.
  - inversion Hcols as [|? ? Hnot Hcols']; subst.
    assert (Hin : In col (columns df)) by (apply Hincl; left; reflexivity).
    apply in_map_iff in Hin. destruct Hin as [c [Hname Hc]].
    simpl. unfold update_column at 1.
    rewrite <- Hname, (getitem_unique df c Hnd Hc), Hname.
    rewrite IH.
    + f_equal. unfold setitem. rewrite map_map. apply map_ext_in.
      intros c' Hc'. destruct (String.eqb (name c') col) eqn:E; simpl.
      * apply String.eqb_eq in E.
        assert (c' = c) as -> by
            (apply (unique_label df Hnd); auto; congruence).
        destruct (existsb (String.eqb col) cols) eqn:X.
        -- exfalso. apply Hnot. apply existsb_exists in X.
           destruct X as [x [Hx Hx']]. apply String.eqb_eq in Hx'.
           subst x. exact Hx.
        -- rewrite E. reflexivity.
      * reflexivity.
    + rewrite columns_setitem. exact Hnd.
    + exact Hcols'.
    + rewrite columns_setitem. intros x Hx. apply Hincl. right. exact Hx.
Qed.

Lemma for_each_ext (b1 b2 : table -> string -> result table)
      (cols : list string) :
  (forall df col, b1 df col = b2 df col) ->
  forall df, for_each b1 cols df = for_each b2 cols df.
Proof.
  intro H. induction cols as [|col cols IH]; intro df; simpl; auto.
  rewrite H. destruct (b2 df col); auto.
Qed.

Lemma column_step_update (parse : string -> option Q)
      (df : table) (col : string) :
  column_step parse df col = update_column (impute_series parse) df col.
Proof.
  unfold column_step, coerce_step, update_column, fill_step, impute_series,
    coerce.
  destruct (getitem df col) as [s|cs] eqn:G.
  - destruct (to_numeric parse s) as [s'|e].
    + rewrite (getitem_setitem df col s _ G), setitem_setitem. reflexivity.
    + rewrite G. reflexivity.
  - rewrite G. reflexivity.
Qed.

Lemma existsb_eqb_self (c : column) (df : table) :
  In c df -> existsb (String.eqb (name c)) (columns df) = true.
Proof.
  intro H. apply existsb_exists. exists (name c).
  split; [apply in_map, H|apply String.eqb_refl].
Qed.

(** Stage 4 on a frame with distinct labels. *)
Lemma impute_columns_unique (parse : string -> option Q) (df : table) :
  NoDup (columns df) ->
  impute_columns parse df = Ok (map_series (impute_series parse) df).
Proof.
  intro Hnd. unfold impute_columns.
  rewrite (for_each_ext _ _ _ (column_step_update parse)).
  rewrite for_each_update_column; auto using incl_refl.
  unfold map_series. apply f_equal. apply map_ext_in. intros c Hc.
  rewrite (existsb_eqb_self c df Hc). reflexivity.
Qed.

Lemma clip_series_text (c : column) :
  is_numeric (data c) = false -> mkColumn (name c) (clip_series (data c)) = c.
Proof. destruct c as [n [l|l]]; simpl; [discriminate|reflexivity]. Qed.

Lemma numeric_cols_incl (df : table) : incl (numeric_cols df) (columns df).
Proof.
  unfold numeric_cols, columns. intros x Hx. apply in_map_iff in Hx.
  destruct Hx as [c [<- Hc]]. apply filter_In in Hc. apply in_map, Hc.
Qed.

Lemma numeric_cols_NoDup (df : table) :
  NoDup (columns df) -> NoDup (numeric_cols df).
Proof.
  induction df as [|c df IH]; intro Hnd.
  - constructor.
  - inversion Hnd as [|? ? Hfresh Hrest]; subst.
    unfold numeric_cols in *. simpl.
    destruct (is_numeric (data c)); [|apply IH, Hrest].
    simpl. constructor; [|apply IH, Hrest].
    intro Hin. apply Hfresh. apply (numeric_cols_incl df), Hin.
Qed.

(** Stage 5 on a frame with distinct labels. *)
Lemma clip_columns_unique (df : table) :
  NoDup (columns df) -> clip_columns df = Ok (map_series clip_series df).
Proof.
  intro Hnd. unfold clip_columns.
  change clip_step with (update_column clip_series).
  rewrite for_each_update_column; auto.
  - unfold map_series. apply f_equal. apply map_ext_in. intros c Hc.
    destruct (existsb (String.eqb (name c)) (numeric_cols df)) eqn:X; auto.
    destruct (is_numeric (data c)) eqn:N.
    + exfalso. rewrite <- not_true_iff_false in X. apply X.
      apply existsb_exists. exists (name c).
      split; [|apply String.eqb_refl].
      unfold numeric_cols, columns. apply in_map, filter_In. auto.
    + symmetry. apply clip_series_text, N.
  - apply numeric_cols_NoDup, Hnd.
  - apply numeric_cols_incl.
Qed.

(** ** Numeric coercion *)

Section Coercion.
Variable parse : string -> option Q.

Lemma parse_all_Some (l : list (option string)) :
  (forall t, In (Some t) l -> parse t <> None) ->
  parse_all parse l = Some (map (parse_cell parse) l).
Proof.
  induction l as [|[t|] l IH]; simpl; intro H; auto.
  - destruct (parse t) as [q|] eqn:E.
    + rewrite IH by (intros; apply H; auto). reflexivity.
    + exfalso. apply (H t); auto.
  - rewrite IH by (intros; apply H; auto). reflexivity.
Qed.

Lemma parse_all_None (l : list (option string)) (t : string) :
  In (Some t) l -> parse t = None -> parse_all parse l = None.
Proof.
  induction l as [|[t'|] l IH]; simpl; intros Hin E; [easy| |].
  - destruct Hin as [Hin|Hin].
    + inversion Hin; subst. rewrite E. reflexivity.
    + rewrite (IH Hin E). destruct (parse t'); reflexivity.
  - destruct Hin as [Hin|Hin]; [discriminate|].
    rewrite (IH Hin E). reflexivity.
Qed.

Lemma parse_all_inv (l : list (option string)) (r : list (option Q)) :
  parse_all parse l = Some r ->
  forall t, In (Some t) l -> parse t <> None.
Proof.
  intros H t Hin E. rewrite (parse_all_None l t Hin E) in H. discriminate.
Qed.

End Coercion.



(** ** The mode of a textual column *)





Lemma most_frequent_In (vals : list string) (s : string) :
  In s (most_frequent vals) <->
  In s vals /\ count_of s vals = max_count vals.
Proof.
  unfold most_frequent. rewrite filter_In, nodup_In, Nat.eqb_eq. reflexivity.
Qed.




Lemma fillna_Some {A : Type} (v : A) (l : list (option A)) :
  fillna (Some v) l
  = map (fun o => match o with Some x => Some x | None => Some v end) l.
Proof. reflexivity. Qed.



(** ** Imputation *)

Lemma has_value_num (l : list (option Q)) :
  has_value (NumCol l) = true <-> dropna l <> [].
Proof.
  unfold has_value. simpl. induction l as [|[q|] l IH]; simpl.
  - split; [discriminate|congruence].
  - split; [discriminate|reflexivity].
  - exact IH.
Qed.

Lemma has_value_text (l : list (option string)) :
  has_value (TextCol l) = true <-> dropna l <> [].
Proof.
  unfold has_value. simpl. induction l as [|[q|] l IH]; simpl.
  - split; [discriminate|congruence].
  - split; [discriminate|reflexivity].
  - exact IH.
Qed.

Lemma dropna_nil_repeat {A : Type} (l : list (option A)) :
  dropna l = [] -> l = repeat None (length l).
Proof.
  induction l as [|[x|] l IH]; simpl; intro H; [reflexivity|discriminate|].
  f_equal. apply IH, H.
Qed.

Lemma dropna_In {A : Type} (l : list (option A)) (x : A) :
  In x (dropna l) <-> In (Some x) l.
Proof.
  induction l as [|[y|] l IH]; simpl.
  - reflexivity.
  - rewrite IH. split; (intros [H|H]; [left; congruence|right; exact H]).
  - rewrite IH. split; [auto|intros [H|H]; [discriminate|exact H]].
Qed.

Lemma sorted_values_length (l : list (option Q)) :
  length (sorted_values l) = length (dropna l).
Proof. apply sort_by_length. Qed.

Lemma median_Some (l : list (option Q)) :
  dropna l <> [] -> exists m, median l = Some m.
Proof.
  intro H. unfold median. pose proof (sorted_values_length l) as E.
  destruct (length (sorted_values l)) as [|n] eqn:L.
  - exfalso. apply H. apply length_zero_iff_nil. congruence.
  - destruct (Nat.even (S n)); eexists; reflexivity.
Qed.

Lemma median_None (l : list (option Q)) : dropna l = [] -> median l = None.
Proof.
  intro H. unfold median, sorted_values. rewrite H. reflexivity.
Qed.

Lemma fillna_None {A : Type} (l : list (option A)) : fillna None l = l.
Proof.
  unfold fillna. rewrite <- (map_id l) at 2. apply map_ext.
  intros [x|]; reflexivity.
Qed.

Lemma complete_fillna_num (v : Q) (l : list (option Q)) :
  complete (NumCol (fillna (Some v) l)) = true.
Proof.
  unfold complete. simpl. induction l as [|[q|] l IH]; simpl; auto.
Qed.

Lemma complete_fillna_text (v : string) (l : list (option string)) :
  complete (TextCol (fillna (Some v) l)) = true.
Proof.
  unfold complete. simpl. induction l as [|[q|] l IH]; simpl; auto.
Qed.

Lemma parse_all_repeat_None (parse : string -> option Q) (n : nat) :
  parse_all parse (repeat None n) = Some (repeat None n).
Proof. induction n as [|n IH]; simpl; [|rewrite IH]; reflexivity. Qed.

Lemma impute_series_complete (parse : string -> option Q) (s : series) :
  has_value s = true -> complete (impute_series parse s) = true.
Proof.
  unfold impute_series, coerce. destruct s as [l|l]; simpl to_numeric.
  - rewrite has_value_num. intro H.
    destruct (median_Some l H) as [m E]. simpl. rewrite E.
    apply complete_fillna_num.
  - rewrite has_value_text. intro H.
    destruct (parse_all parse l) as [r|] eqn:P.
    + pose proof (parse_all_inv parse l r P) as Hall.
      rewrite (parse_all_Some parse l Hall) in P. inversion P; subst r.
      assert (Hr : dropna (map (parse_cell parse) l) <> []).
      { destruct (dropna l) as [|t vals] eqn:D; [congruence|].
        assert (In (Some t) l) as Ht
            by (apply dropna_In; rewrite D; left; reflexivity).
        destruct (parse t) as [q|] eqn:E; [|exfalso; apply (Hall t Ht E)].
        assert (In q (dropna (map (parse_cell parse) l))) as Hq.
        { apply dropna_In. apply in_map_iff. exists (Some t).
          split; [exact E|exact Ht]. }
        intro Z. rewrite Z in Hq. exact Hq. }
      destruct (median_Some _ Hr) as [m E]. simpl. rewrite E.
      apply complete_fillna_num.
    + simpl. apply complete_fillna_text.
Qed.

Lemma impute_series_all_missing (parse : string -> option Q) (s : series) :
  has_value s = false ->
  impute_series parse s = NumCol (repeat None (series_length s)).
Proof.
  intro H. unfold impute_series, coerce, series_length.
  destruct s as [l|l]; simpl to_numeric; simpl cells_of; rewrite length_map.
  - assert (D : dropna l = []).
    { destruct (dropna l) eqn:D; auto. exfalso.
      rewrite <- not_true_iff_false in H. apply H, has_value_num.
      congruence. }
    simpl. rewrite (median_None l D), fillna_None.
    f_equal. apply dropna_nil_repeat, D.
  - assert (D : dropna l = []).
    { destruct (dropna l) eqn:D; auto. exfalso.
      rewrite <- not_true_iff_false in H. apply H, has_value_text.
      congruence. }
    rewrite (dropna_nil_repeat l D) at 1.
    rewrite parse_all_repeat_None. simpl.
    rewrite median_None, fillna_None; [reflexivity|].
    clear. induction (length l); simpl; auto.
Qed.

Lemma columns_strip_columns (df : table) :
  columns (strip_columns df) = map strip (columns df).
Proof. unfold columns, strip_columns. rewrite !map_map. reflexivity. Qed.

Lemma columns_replace_blank (df : table) :
  columns (replace_blank df) = columns df.
Proof. unfold columns, replace_blank. rewrite map_map. reflexivity. Qed.

Lemma columns_stage3 (df : table) :
  columns (stage3 df) = map strip (columns df).
Proof.
  unfold stage3, drop_duplicates.
  rewrite columns_replace_blank, columns_select_rows.
  apply columns_strip_columns.
Qed.

Lemma stage4_unique (parse : string -> option Q) (df : table) :
  NoDup (map strip (columns df)) ->
  stage4 parse df = Ok (map_series (impute_series parse) (stage3 df)).
Proof.
  intro H. unfold stage4. apply impute_columns_unique.
  rewrite columns_stage3. exact H.
Qed.

(** C3 (amended).  When the trimmed labels are distinct, stage 4 returns;
    every column that has a non-missing cell after the blank normalization
    comes out without a missing cell, and a column whose cells are all
    missing comes out numeric and still all missing. *)
Theorem stage4_fills_columns_that_have_a_value
        (parse : string -> option Q) (df : table)
        (Hnames : NoDup (map strip (columns df))) :
  stage4 parse df = Ok (map_series (impute_series parse) (stage3 df)) /\
  forall c, In c (stage3 df) ->
    (has_value (data c) = true ->
     complete (impute_series parse (data c)) = true) /\
    (has_value (data c) = false ->
     impute_series parse (data c)
     = NumCol (repeat None (series_length (data c)))).
Proof.
  split; [apply stage4_unique, Hnames|].
  intros c _. split.
  - apply impute_series_complete.
  - apply impute_series_all_missing.
Qed.

Lemma example_loaded_labels : NoDup (map strip (columns example_loaded)).
Proof.
  simpl. constructor; [|constructor; [|constructor]]; simpl; intuition.
  discriminate.
Qed.

Lemma stage4_fills_columns_that_have_a_value_witness :
  NoDup (map strip (columns example_loaded)) /\
  stage4 parse_integer example_loaded
  = Ok (map_series (impute_series parse_integer) (stage3 example_loaded)).
Proof.
  split; [exact example_loaded_labels|].
  apply (stage4_fills_columns_that_have_a_value parse_integer example_loaded).
  simpl. constructor; [|constructor; [|constructor]]; simpl; intuition.
  discriminate.
Defined.

(** C3 as stated fails: a column without a single value is still all
    missing after stage 4. *)
Lemma stage4_leaves_empty_column_missing :
  exists df4,
    stage4 parse_integer empty_column = Ok df4 /\
    ~ (forall c, In c df4 -> complete (data c) = true).
Proof.
  eexists. split; [reflexivity|].
  intro H. specialize (H (mkColumn "Note" (NumCol [None; None]))).
  simpl in H. discriminate H. right. left. reflexivity.
Qed.

(** ** Quartiles and the median *)

Lemma sorted_values_sorted (l : list (option Q)) :
  StronglySorted Qle_b (sorted_values l).
Proof.
  unfold sorted_values.
  apply (sort_by_sorted Qle_bool Qle_bool_total Qle_bool_trans).
Qed.

Lemma sorted_nth_le (xs : list Q) :
  StronglySorted Qle_b xs ->
  forall i j, (i <= j)%nat -> (j < length xs)%nat ->
              nth i xs 0 <= nth j xs 0.
Proof.
  induction 1 as [|x xs Hs IH Hall]; intros i j Hij Hj; simpl in Hj; [lia|].
  destruct i as [|i], j as [|j]; simpl; try lia.
  - apply Qle_refl.
  - rewrite Forall_forall in Hall. apply Qle_bool_iff, Hall.
    apply nth_In. lia.
  - apply IH; lia.
Qed.

Section Interpolation.
Variable xs : list Q.
Hypothesis xs_sorted : StronglySorted Qle_b xs.
Hypothesis xs_nonempty : (0 < length xs)%nat.

Lemma floor_in_range (h : Q) :
  0 <= h -> h <= inject_Z (Z.of_nat (length xs - 1)) ->
  (0 <= Qfloor h <= Z.of_nat (length xs - 1))%Z.
Proof.
  intros H0 H1. split.
  - change 0%Z with (Qfloor 0). apply Qfloor_resp_le, H0.
  - rewrite <- (Qfloor_Z (Z.of_nat (length xs - 1))). apply Qfloor_resp_le, H1.
Qed.

Lemma fraction_in_range (h : Q) :
  0 <= h - inject_Z (Qfloor h) /\ h - inject_Z (Qfloor h) < 1.
Proof.
  pose proof (Qfloor_le h). pose proof (Qlt_floor h) as H1.
  rewrite inject_Z_plus in H1. change (inject_Z 1) with 1 in H1.
  split; lra.
Qed.

(** The interpolated value lies between its two neighbours. *)
Lemma interpolate_between (h : Q) :
  0 <= h -> h <= inject_Z (Z.of_nat (length xs - 1)) ->
  nth (Z.to_nat (Qfloor h)) xs 0 <= interpolate xs h /\
  interpolate xs h
  <= nth (Nat.min (S (Z.to_nat (Qfloor h))) (length xs - 1)) xs 0.
Proof.
  intros H0 H1. destruct (floor_in_range h H0 H1) as [F0 F1].
  destruct (fraction_in_range h) as [G0 G1].
  unfold interpolate.
  set (i := Z.to_nat (Qfloor h)) in *.
  set (g := h - inject_Z (Qfloor h)) in *.
  assert (Hle : nth i xs 0 <= nth (Nat.min (S i) (length xs - 1)) xs 0).
  { apply sorted_nth_le; auto; subst i; lia. }
  set (lo := nth i xs 0) in *.
  set (hi := nth (Nat.min (S i) (length xs - 1)) xs 0) in *.
  split; nra.
Qed.

Lemma interpolate_monotone (h1 h2 : Q) :
  0 <= h1 -> h1 <= h2 -> h2 <= inject_Z (Z.of_nat (length xs - 1)) ->
  interpolate xs h1 <= interpolate xs h2.
Proof.
  intros H0 H12 H2.
  assert (H1 : h1 <= inject_Z (Z.of_nat (length xs - 1))) by lra.
  assert (H0' : 0 <= h2) by lra.
  destruct (floor_in_range h1 H0 H1) as [F0 F1].
  destruct (floor_in_range h2 H0' H2) as [F0' F1'].
  pose proof (Qfloor_resp_le h1 h2 H12) as Hf.
  destruct (Z.eq_dec (Qfloor h1) (Qfloor h2)) as [E|N].
  - unfold interpolate. rewrite E.
    set (i := Z.to_nat (Qfloor h2)) in *.
    assert (Hle : nth i xs 0 <= nth (Nat.min (S i) (length xs - 1)) xs 0).
    { apply sorted_nth_le; auto; subst i; lia. }
    set (lo := nth i xs 0) in *.
    set (hi := nth (Nat.min (S i) (length xs - 1)) xs 0) in *.
    assert (G : h1 - inject_Z (Qfloor h2) <= h2 - inject_Z (Qfloor h2))
      by lra.
    destruct (fraction_in_range h1) as [G0 _]. rewrite E in G0.
    nra.
  - destruct (interpolate_between h1 H0 H1) as [_ U].
    destruct (interpolate_between h2 H0' H2) as [L _].
    eapply Qle_trans; [exact U|]. eapply Qle_trans; [|exact L].
    apply sorted_nth_le; auto; lia.
Qed.
End Interpolation.

Lemma Qfloor_half (z : Z) : Qfloor ((1 # 2) * inject_Z z) = (z / 2)%Z.
Proof.
  unfold Qfloor, Qmult, inject_Z. simpl Qnum. simpl Qden.
  rewrite Z.mul_1_l. reflexivity.
Qed.

(** The median is the quantile of order one half. *)
Lemma median_interpolate (l : list (option Q)) (m : Q) :
  median l = Some m ->
  m == interpolate (sorted_values l)
         ((1 # 2) * inject_Z (Z.of_nat (length (sorted_values l) - 1))).
Proof.
  unfold median.
  set (xs := sorted_values l).
  destruct (length xs) as [|k] eqn:L; [discriminate|].
  unfold interpolate. rewrite Qfloor_half, L.
  destruct (Nat.even (S k)) eqn:Ev; intro H; inversion H; subst m; clear H;
    change (fst (Nat.divmod k 1 0 0)) with (S k / 2)%nat.
  - apply Nat.even_spec in Ev. destruct Ev as [j Ej].
    assert (Hj : (S k / 2 = j)%nat).
    { rewrite Ej, Nat.mul_comm. apply Nat.div_mul. discriminate. }
    assert (Hz : (Z.of_nat (S k - 1) = 2 * (Z.of_nat j - 1) + 1)%Z) by lia.
    assert (Hf : (Z.of_nat (S k - 1) / 2 = Z.of_nat j - 1)%Z).
    { rewrite Hz. rewrite Z.mul_comm, Z.div_add_l by lia.
      change (1 / 2)%Z with 0%Z. lia. }
    rewrite Hf, Hj.
    replace (Z.to_nat (Z.of_nat j - 1)) with (j - 1)%nat by lia.
    replace (Nat.min (S (j - 1)) (S k - 1)) with j by lia.
    rewrite Hz, inject_Z_plus, inject_Z_mult.
    change (inject_Z 2) with 2. change (inject_Z 1) with 1.
    set (a := nth (j - 1) xs 0). set (b := nth j xs 0).
    set (c := inject_Z (Z.of_nat j - 1)).
    field.
  - assert (Od : Nat.odd (S k) = true)
      by (rewrite <- Nat.negb_even, Ev; reflexivity).
    apply Nat.odd_spec in Od. destruct Od as [j Ej].
    assert (Hj : (S k / 2 = j)%nat).
    { rewrite Ej. rewrite Nat.add_comm, Nat.mul_comm.
      rewrite Nat.div_add by discriminate. reflexivity. }
    assert (Hz : (Z.of_nat (S k - 1) = 2 * Z.of_nat j)%Z) by lia.
    assert (Hf : (Z.of_nat (S k - 1) / 2 = Z.of_nat j)%Z).
    { rewrite Hz, Z.mul_comm. apply Z.div_mul. lia. }
    rewrite Hf, Hj, Nat2Z.id.
    rewrite Hz, inject_Z_mult. change (inject_Z 2) with 2.
    set (a := nth j xs 0).
    set (b := nth (Nat.min (S j) (S k - 1)) xs 0).
    set (c := inject_Z (Z.of_nat j)).
    field.
Qed.

(** The median lies between the quartiles. *)
Lemma quartiles_around_median (l : list (option Q)) (q1 q3 m : Q) :
  quantile (1 # 4) l = Some q1 -> quantile (3 # 4) l = Some q3 ->
  median l = Some m ->
  q1 <= m /\ m <= q3.
Proof.
  intros H1 H3 Hm. pose proof (median_interpolate l m Hm) as E.
  unfold quantile in H1, H3.
  pose proof (sorted_values_sorted l) as Hs.
  destruct (sorted_values l) as [|x xs] eqn:X; [discriminate|].
  inversion H1; subst q1; clear H1. inversion H3; subst q3; clear H3.
  assert (Hlen : (0 < length (x :: xs))%nat) by (simpl; lia).
  set (z := inject_Z (Z.of_nat (length (x :: xs) - 1))) in *.
  assert (Hz : 0 <= z).
  { subst z. change 0 with (inject_Z 0). rewrite <- Zle_Qle. lia. }
  rewrite E. split.
  - apply (interpolate_monotone (x :: xs) Hs Hlen);
      try change (inject_Z (Z.of_nat (length xs - 0))) with z; fold z; lra.
  - apply (interpolate_monotone (x :: xs) Hs Hlen);
      try change (inject_Z (Z.of_nat (length xs - 0))) with z; fold z; lra.
Qed.

Lemma quantile_Some (p : Q) (l : list (option Q)) :
  dropna l <> [] -> exists q, quantile p l = Some q.
Proof.
  intro H. unfold quantile. pose proof (sorted_values_length l) as E.
  destruct (sorted_values l) as [|x xs].
  - exfalso. apply H, length_zero_iff_nil. simpl in E. congruence.
  - eexists. reflexivity.
Qed.

Lemma quantile_None (p : Q) (l : list (option Q)) :
  dropna l = [] -> quantile p l = None.
Proof. intro H. unfold quantile, sorted_values. rewrite H. reflexivity. Qed.

Lemma Qlt_bool_false (a b : Q) : Qlt_bool a b = false <-> b <= a.
Proof.
  unfold Qlt_bool. rewrite negb_false_iff. apply Qle_bool_iff.
Qed.

Lemma Qlt_bool_true (a b : Q) : Qlt_bool a b = true <-> a < b.
Proof.
  unfold Qlt_bool. rewrite negb_true_iff, <- not_true_iff_false, Qle_bool_iff.
  split; [apply Qnot_le_lt|apply Qlt_not_le].
Qed.

(** The bounds enclose the median. *)
Lemma bounds_around_median (l : list (option Q)) (lower upper m : Q) :
  bounds l = Some (lower, upper) -> median l = Some m ->
  lower <= m /\ m <= upper.
Proof.
  unfold bounds.
  destruct (quantile (1 # 4) l) as [q1|] eqn:H1; [|discriminate].
  destruct (quantile (3 # 4) l) as [q3|] eqn:H3; [|discriminate].
  intros H Hm. inversion H; subst; clear H.
  destruct (quartiles_around_median l q1 q3 m H1 H3 Hm). split; lra.
Qed.

Lemma bounds_Some_median (l : list (option Q)) (b : Q * Q) :
  bounds l = Some b -> exists m, median l = Some m.
Proof.
  intro H. apply median_Some. intro D. unfold bounds in H.
  rewrite (quantile_None _ l D) in H. discriminate.
Qed.

(** ** Outlier clipping *)

Lemma clip_outliers_spec (l : list (option Q)) (lower upper : Q) :
  bounds l = Some (lower, upper) ->
  exists m,
    median l = Some m /\
    clip_outliers l = map (clip_cell lower upper m) l /\
    forall v, In (Some v) (clip_outliers l) -> lower <= v /\ v <= upper.
Proof.
  intro Hb. destruct (bounds_Some_median l _ Hb) as [m Hm].
  exists m. split; [exact Hm|].
  assert (E : clip_outliers l = map (clip_cell lower upper m) l).
  { unfold clip_outliers. rewrite Hb, Hm. reflexivity. }
  split; [exact E|]. rewrite E. intros v Hv.
  apply in_map_iff in Hv. destruct Hv as [[v0|] [Hv _]]; [|discriminate].
  unfold clip_cell in Hv.
  destruct (Qlt_bool v0 lower) eqn:C1; simpl in Hv.
  - inversion Hv; subst. apply (bounds_around_median l); assumption.
  - destruct (Qlt_bool upper v0) eqn:C2; inversion Hv; subst.
    + apply (bounds_around_median l); assumption.
    + apply Qlt_bool_false in C1, C2. split; assumption.
Qed.

Lemma clip_outliers_no_bounds (l : list (option Q)) :
  bounds l = None -> clip_outliers l = l /\ dropna l = [].
Proof.
  intro Hb. split; [unfold clip_outliers; rewrite Hb; reflexivity|].
  destruct (dropna l) as [|x vals] eqn:D; [reflexivity|exfalso].
  assert (Hne : dropna l <> []) by congruence.
  destruct (quantile_Some (1 # 4) l Hne) as [q1 H1].
  destruct (quantile_Some (3 # 4) l Hne) as [q3 H3].
  unfold bounds in Hb. rewrite H1, H3 in Hb. discriminate.
Qed.

Lemma stage5_unique (parse : string -> option Q) (df : table) :
  NoDup (map strip (columns df)) ->
  stage5 parse df
  = Ok (map_series clip_series
          (map_series (impute_series parse) (stage3 df))).
Proof.
  intro H. unfold stage5. rewrite (stage4_unique parse df H).
  apply clip_columns_unique.
  rewrite columns_map_series, columns_stage3. exact H.
Qed.



(** ** The run of the script *)

(** The four ways a run can end. *)
Lemma script_cases (parse : string -> option Q)
      (gc : prompt -> result string) (df0 : table) :
  script parse gc df0 =
  let before := quality df0 in
  let start := [Dataframe (head df0); Metric "Before Cleaning" before] in
  match gc (analysis_prompt df0) with
  | Raised e => (start, Raised e)
  | Ok a =>
      match clean parse df0 with
      | Raised e => (start ++ [Write a], Raised e)
      | Ok df =>
          let after := quality df in
          let shown :=
            start ++
            [Write a; Success; Dataframe (head df);
             Metric "Before Cleaning" before; Metric "After Cleaning" after;
             Metric "Improvement" (f_sub after before)] in
          match gc (SummaryPrompt before after (columns df)) with
          | Raised e => (shown, Raised e)
          | Ok r =>
              (shown ++
               [Write r;
                DownloadButton
                  (PdfFile (generate_pdf_report r before after
                              (f_sub after before) df));
                DownloadButton (CsvFile df)], Ok tt)
          end
      end
  end.
Proof.
  unfold script. simpl.
  destruct (gc (analysis_prompt df0)) as [a|e]; simpl; [|reflexivity].
  destruct (clean parse df0) as [df|e]; simpl; [|reflexivity].
  destruct (gc (SummaryPrompt (quality df0) (quality df) (columns df)))
    as [r|e]; reflexivity.
Qed.

(** C1 (amended).  A failure of the first narrative call stops the run
    before the cleaning starts; the cleaning is announced exactly when the
    first call and the pipeline succeed; the cleaned CSV is offered exactly
    when both narrative calls and the pipeline succeed. *)
Theorem narrative_failure_stops_the_run
        (parse : string -> option Q) (gc : prompt -> result string)
        (df : table) :
  (forall e, gc (analysis_prompt df) = Raised e ->
     script parse gc df
     = ([Dataframe (head df); Metric "Before Cleaning" (quality df)],
        Raised e)) /\
  (In Success (widgets (script parse gc df)) <->
   exists a c, gc (analysis_prompt df) = Ok a /\ clean parse df = Ok c) /\
  (forall c,
     In (DownloadButton (CsvFile c)) (widgets (script parse gc df)) <->
     exists a r,
       gc (analysis_prompt df) = Ok a /\ clean parse df = Ok c /\
       gc (SummaryPrompt (quality df) (quality c) (columns c)) = Ok r).
Proof.
  rewrite script_cases. cbv zeta. split; [|split].
  - intros e E. rewrite E. reflexivity.
  - destruct (gc (analysis_prompt df)) as [a|e].
    + destruct (clean parse df) as [c|e].
      * split; [intros _; eauto|intros _].
        destruct (gc (SummaryPrompt (quality df) (quality c) (columns c)));
          simpl; auto 10.
      * split; [intro H; simpl in H; widget_cases H|].
        intros [a' [c [_ H]]]. discriminate.
    + split; [intro H; simpl in H; widget_cases H|].
      intros [a' [c [H _]]]. discriminate.
  - intro c0. destruct (gc (analysis_prompt df)) as [a|e].
    + destruct (clean parse df) as [c|e].
      * destruct (gc (SummaryPrompt (quality df) (quality c) (columns c)))
          as [r|e] eqn:G.
        -- split.
           ++ intro H. simpl in H. widget_cases H.
              inversion H; subst. eauto.
           ++ intros [a' [r' [_ [H _]]]]. inversion H; subst.
              simpl. auto 15.
        -- split; [intro H; simpl in H; widget_cases H|].
           intros [a' [r' [_ [H G']]]]. inversion H; subst. congruence.
      * split; [intro H; simpl in H; widget_cases H|].
        intros [a' [r' [_ [H _]]]]. discriminate.
    + split; [intro H; simpl in H; widget_cases H|].
      intros [a' [r' [H _]]]. discriminate.
Qed.

Lemma narrative_failure_stops_the_run_witness :
  service_down (analysis_prompt example_loaded) = Raised NarrativeError /\
  script parse_integer service_down example_loaded
  = ([Dataframe (head example_loaded);
      Metric "Before Cleaning" (quality example_loaded)],
     Raised NarrativeError).
Proof.
  split; [reflexivity|].
  destruct (narrative_failure_stops_the_run parse_integer service_down
              example_loaded) as (H & _).
  apply H. reflexivity.
Defined.

(** C1 as stated fails: the table of the worked example is cleaned without
    error, yet with the service down the run ends with the exception before
    the cleaning, and no CSV is offered. *)
Lemma service_down_no_cleaning_no_csv :
  clean parse_integer example_loaded = Ok example_cleaned /\
  outcome (script parse_integer service_down example_loaded)
  = Raised NarrativeError /\
  ~ In Success (widgets (script parse_integer service_down example_loaded)) /\
  forall c,
    ~ In (DownloadButton (CsvFile c))
         (widgets (script parse_integer service_down example_loaded)).
Proof.
  split; [reflexivity|]. split; [reflexivity|]. split.
  - intro H. simpl in H. widget_cases H.
  - intros c H. simpl in H. widget_cases H.
Qed.

(** ** The worked example *)

(** C4 (amended).  The example table is cleaned to the header Name, Age and
    the rows (Alice, 30), (Bob, 30): the second Alice row is the one
    flagged, the Age column is numeric and its blank is the median 30; the
    result has 2 rows and 2 columns and scores 100.  The score before
    cleaning is taken on the 6 cells of the table as loaded: 100 * (1 - 1/6)
    when the blank is loaded as missing, 100 when it is still a string. *)
Theorem example_table_cleaning :
  clean parse_integer example_loaded = Ok example_cleaned /\
  clean parse_integer example_text = Ok example_cleaned /\
  columns example_cleaned = ["Name"; "Age"]%string /\
  duplicated (strip_columns example_loaded) = [false; true; false] /\
  coerce parse_integer (TextCol [Some "30"; None]%string)
  = NumCol [Some 30; None] /\
  median [Some 30; None] = Some 30 /\
  nrows example_cleaned = 2%nat /\ ncols example_cleaned = 2%nat /\
  size example_loaded = 6%nat /\ missing_cells example_loaded = 1%nat /\
  f_eq (quality example_loaded) (FNum (250 # 3)) /\
  f_eq (quality example_text) (FNum 100) /\
  f_eq (quality example_cleaned) (FNum 100) /\
  In (Metric "Before Cleaning" (quality example_loaded))
     (widgets (script parse_integer service_up example_loaded)) /\
  In (Metric "After Cleaning" (quality example_cleaned))
     (widgets (script parse_integer service_up example_loaded)) /\
  In (DownloadButton (CsvFile example_cleaned))
     (widgets (script parse_integer service_up example_loaded)).
Proof.
  repeat (split; [vm_compute; reflexivity|]).
  repeat (split; [vm_compute; in_widgets|]).
  vm_compute; in_widgets.
Qed.

(** C4 as stated fails: the score before cleaning is not 75, whether the
    blank is loaded as missing or kept as a string. *)
Lemma example_before_quality_not_75 :
  ~ f_eq (quality example_loaded) (FNum 75) /\
  ~ f_eq (quality example_text) (FNum 75).
Proof. split; intro H; vm_compute in H; discriminate. Qed.

(** ** Determinism *)




(** * Further properties of the script *)

(** ** Header normalization (line 81) *)

Lemma lstrip_split (s : string) :
  exists pre, s = (pre ++ lstrip s)%string /\ is_blank pre = true.
Proof.
  induction s as [|a s [pre [E B]]]; simpl.
  - exists EmptyString. split; reflexivity.
  - destruct (is_space a) eqn:Sp.
    + exists (String a pre). simpl. rewrite Sp, B.
      split; [f_equal; exact E|reflexivity].
    + exists EmptyString. split; reflexivity.
Qed.

Lemma lstrip_no_leading_space (s : string) :
  starts_with_space (lstrip s) = false.
Proof.
  induction s as [|a s IH]; simpl; [reflexivity|].
  destruct (is_space a) eqn:Sp; [exact IH|simpl; exact Sp].
Qed.

Lemma lstrip_fixed (s : string) :
  starts_with_space s = false -> lstrip s = s.
Proof. destruct s as [|a s]; simpl; [reflexivity|intros ->; reflexivity]. Qed.

Lemma rstrip_split (s : string) :
  exists post, s = (rstrip s ++ post)%string /\ is_blank post = true.
Proof.
  induction s as [|a s [post [E B]]]; simpl.
  - exists EmptyString. split; reflexivity.
  - destruct (rstrip s) as [|b r] eqn:R.
    + simpl in E. subst post. destruct (is_space a) eqn:Sp.
      * exists (String a s). simpl. rewrite Sp, B. split; reflexivity.
      * exists s. split; [reflexivity|exact B].
    + exists post. split; [simpl; f_equal; exact E|exact B].
Qed.

Lemma rstrip_no_trailing_space (s : string) :
  ends_with_space (rstrip s) = false.
Proof.
  induction s as [|a s IH]; simpl; [reflexivity|].
  destruct (rstrip s) as [|b r] eqn:R.
  - destruct (is_space a) eqn:Sp; simpl; [reflexivity|exact Sp].
  - exact IH.
Qed.

Lemma rstrip_fixed (s : string) :
  ends_with_space s = false -> rstrip s = s.
Proof.
  induction s as [|a s IH]; [reflexivity|].
  destruct s as [|b r].
  - simpl. intros ->. reflexivity.
  - intro H. change (ends_with_space (String b r) = false) in H.
    specialize (IH H). simpl in IH |- *. rewrite IH. reflexivity.
Qed.

Lemma rstrip_keeps_first (s : string) :
  starts_with_space s = false -> starts_with_space (rstrip s) = false.
Proof.
  destruct s as [|a s]; simpl; [reflexivity|]. intro Sp.
  destruct (rstrip s); [rewrite Sp|]; simpl; auto.
Qed.

(** X1.  [strip] removes a run of whitespace at each end and nothing else:
    the label is the stripped label between two blank strings, and the
    stripped label neither starts nor ends with whitespace. *)
Theorem strip_removes_outer_whitespace (s : string) :
  (exists pre post,
     s = (pre ++ strip s ++ post)%string /\
     is_blank pre = true /\ is_blank post = true) /\
  starts_with_space (strip s) = false /\
  ends_with_space (strip s) = false.
Proof.
  unfold strip. split; [|split].
  - destruct (lstrip_split s) as [pre [E B]].
    destruct (rstrip_split (lstrip s)) as [post [E' B']].
    exists pre, post. split; [|split; assumption].
    rewrite <- E'. exact E.
  - apply rstrip_keeps_first, lstrip_no_leading_space.
  - apply rstrip_no_trailing_space.
Qed.

Lemma strip_idempotent (s : string) : strip (strip s) = strip s.
Proof.
  unfold strip at 1. rewrite lstrip_fixed.
  - apply rstrip_fixed. unfold strip. apply rstrip_no_trailing_space.
  - unfold strip. apply rstrip_keeps_first, lstrip_no_leading_space.
Qed.

(** X2.  Header normalization is idempotent, changes no cell, and the
    normalized labels carry no outer whitespace. *)
Theorem strip_columns_idempotent (df : table) :
  strip_columns (strip_columns df) = strip_columns df /\
  map data (strip_columns df) = map data df /\
  forall col, In col (columns (strip_columns df)) ->
    starts_with_space col = false /\ ends_with_space col = false.
Proof.
  unfold strip_columns, columns. rewrite !map_map. simpl.
  split; [|split].
  - apply map_ext. intro c. rewrite strip_idempotent. reflexivity.
  - reflexivity.
  - intros col H. apply in_map_iff in H. destruct H as [c [<- _]].
    unfold strip. split.
    + apply rstrip_keeps_first, lstrip_no_leading_space.
    + apply rstrip_no_trailing_space.
Qed.

(** ** Blank normalization (line 83) *)

Lemma blank_to_nan_not_blank (o : option string) (s : string) :
  blank_to_nan o = Some s -> o = Some s /\ is_blank s = false.
Proof.
  destruct o as [t|]; simpl; [|discriminate].
  destruct (is_blank t) eqn:B; [discriminate|].
  intro H. inversion H; subst. auto.
Qed.

Lemma blank_to_nan_idempotent (o : option string) :
  blank_to_nan (blank_to_nan o) = blank_to_nan o.
Proof.
  destruct o as [t|]; simpl; [|reflexivity].
  destruct (is_blank t) eqn:B; simpl; [reflexivity|rewrite B; reflexivity].
Qed.

Lemma replace_blank_series_idempotent (s : series) :
  replace_blank_series (replace_blank_series s) = replace_blank_series s.
Proof.
  destruct s as [l|l]; simpl; [reflexivity|].
  rewrite map_map. f_equal. apply map_ext, blank_to_nan_idempotent.
Qed.

Lemma replace_blank_series_length (s : series) :
  series_length (replace_blank_series s) = series_length s.
Proof.
  destruct s as [l|l]; unfold series_length; simpl; rewrite ?length_map;
    reflexivity.
Qed.

Lemma isnull_sum_replace_blank (s : series) :
  (isnull_sum s <= isnull_sum (replace_blank_series s))%nat.
Proof.
  destruct s as [l|l]; unfold isnull_sum; simpl; [lia|].
  induction l as [|[t|] l IH]; simpl; [lia| |lia].
  destruct (is_blank t); simpl; lia.
Qed.

Lemma replace_blank_series_no_blank (s : series) :
  existsb blank_cell (cells_of (replace_blank_series s)) = false.
Proof.
  destruct s as [l|l]; simpl.
  - induction l as [|[q|] l IH]; simpl; auto.
  - induction l as [|[t|] l IH]; simpl; auto.
    destruct (is_blank t) eqn:B; simpl; [exact IH|rewrite B; exact IH].
Qed.

(** X3.  After the blank normalization no cell is a whitespace-only
    string: such cells have become missing, every other cell and every
    numeric column is as before, the shape and the header are kept, and a
    second pass changes nothing. *)
Theorem replace_blank_normalizes (df : table) :
  columns (replace_blank df) = columns df /\
  nrows (replace_blank df) = nrows df /\
  (forall c, In c (replace_blank df) ->
     existsb blank_cell (cells_of (data c)) = false) /\
  (forall c, In c df ->
     match data c with
     | NumCol l => replace_blank_series (data c) = NumCol l
     | TextCol l =>
         replace_blank_series (data c)
         = TextCol (map (fun o => match o with
                                  | Some s => if is_blank s then None
                                              else Some s
                                  | None => None
                                  end) l)
     end) /\
  (missing_cells df <= missing_cells (replace_blank df))%nat /\
  replace_blank (replace_blank df) = replace_blank df.
Proof.
  split; [apply columns_replace_blank|]. split; [|split; [|split; [|split]]].
  - destruct df as [|c df]; simpl; [reflexivity|].
    apply replace_blank_series_length.
  - intros c H. unfold replace_blank in H. apply in_map_iff in H.
    destruct H as [c0 [<- _]]. simpl. apply replace_blank_series_no_blank.
  - intros c _. destruct (data c); reflexivity.
  - induction df as [|c df IH]; simpl; [lia|].
    pose proof (isnull_sum_replace_blank (data c)). lia.
  - unfold replace_blank. rewrite map_map. apply map_ext. intro c. simpl.
    rewrite replace_blank_series_idempotent. reflexivity.
Qed.

(** ** Duplicate rows (line 82), continued *)

Lemma cell_eqb_sym (a b : cell) : cell_eqb a b = cell_eqb b a.
Proof.
  destruct a, b; simpl; auto.
  - destruct (Qeq_bool q q0) eqn:E1, (Qeq_bool q0 q) eqn:E2; auto.
    + apply Qeq_bool_sym in E1. congruence.
    + apply Qeq_bool_sym in E2. congruence.
  - apply String.eqb_sym.
Qed.

Lemma row_eqb_sym (r1 : row) : forall r2, row_eqb r1 r2 = row_eqb r2 r1.
Proof.
  induction r1 as [|a r1 IH]; intros [|b r2]; simpl; auto.
  rewrite cell_eqb_sym, IH. reflexivity.
Qed.

Lemma duplicated_drop_duplicates (df : table) :
  well_formed df ->
  rows (drop_duplicates df)
  = take_mask (map negb (duplicated df)) (rows df) /\
  duplicated (drop_duplicates df)
  = repeat false (nrows (drop_duplicates df)).
Proof.
  intro Hwf. pose proof (drop_duplicates_mask_all df Hwf) as Hall.
  pose proof (rows_select_rows _ _ Hall) as Hrows.
  fold (drop_duplicates df) in Hrows. split; [exact Hrows|].
  unfold duplicated at 1. rewrite <- rows_length, Hrows.
  apply (duplicated_from_idempotent (rows df) []).
Qed.

Lemma nth_repeat_false (n i : nat) : nth i (repeat false n) false = false.
Proof.
  revert i. induction n as [|n IH]; intros [|i]; simpl; auto.
Qed.

(** X4.  The rows that [drop_duplicates] returns are pairwise different:
    no two of them agree on every cell. *)
Theorem drop_duplicates_rows_distinct (df : table) (Hwf : well_formed df) :
  forall i j,
    (i < j)%nat -> (j < nrows (drop_duplicates df))%nat ->
    row_eqb (row_at (drop_duplicates df) i) (row_at (drop_duplicates df) j)
    = false.
Proof.
  intros i j Hij Hj.
  destruct (duplicated_drop_duplicates df Hwf) as [_ Hd].
  destruct (row_eqb (row_at (drop_duplicates df) i)
                    (row_at (drop_duplicates df) j)) eqn:E; [|reflexivity].
  exfalso.
  assert (F : nth j (duplicated (drop_duplicates df)) false = true).
  { unfold duplicated.
    apply duplicated_from_nth; [rewrite rows_length; exact Hj|].
    right. exists i. split; [exact Hij|].
    rewrite !rows_nth by lia. rewrite row_eqb_sym. exact E. }
  rewrite Hd, nth_repeat_false in F. discriminate.
Qed.

Lemma drop_duplicates_rows_distinct_witness :
  well_formed example_loaded /\
  row_eqb (row_at (drop_duplicates example_loaded) 0)
          (row_at (drop_duplicates example_loaded) 1) = false.
Proof.
  split; [repeat constructor|].
  apply (drop_duplicates_rows_distinct example_loaded).
  - repeat constructor.
  - lia.
  - vm_compute. lia.
Defined.

Lemma kept_rows_cover (rs : list row) :
  forall seen r,
    In r rs ->
    exists r',
      (In r' seen \/
       In r' (take_mask (map negb (duplicated_from seen rs)) rs)) /\
      row_eqb r r' = true.
Proof.
  induction rs as [|r0 rs IH]; intros seen r Hin; [destruct Hin|].
  simpl. destruct (existsb (row_eqb r0) seen) eqn:E; simpl.
  - destruct Hin as [<-|Hin].
    + apply existsb_exists in E. destruct E as [r' [H1 H2]].
      exists r'. auto.
    + apply IH, Hin.
  - destruct Hin as [<-|Hin].
    + exists r0. split; [right; left; reflexivity|apply row_eqb_refl].
    + destruct (IH (r0 :: seen) r Hin) as [r' [[[Hs|H]|H] Hr]];
        exists r'; (split; [|exact Hr]).
      * right. left. exact Hs.
      * left. exact H.
      * right. right. exact H.
Qed.

Lemma count_unflagged (mask : list bool) :
  length (filter (fun b => b) (map negb mask)) = length (filter negb mask).
Proof.
  induction mask as [|[|] mask IH]; simpl; auto.
Qed.

(** X5.  [drop_duplicates] loses no row up to equality and keeps the frame
    rectangular: every row of the input equals a row of the result, every
    column of the result has one cell per unflagged row, and the result
    has no more rows than the input. *)
Theorem drop_duplicates_covers_rows (df : table) (Hwf : well_formed df) :
  (forall r, In r (rows df) ->
     exists r', In r' (rows (drop_duplicates df)) /\ row_eqb r r' = true) /\
  Forall (fun c => series_length (data c)
                   = length (filter negb (duplicated df)))
         (drop_duplicates df) /\
  well_formed (drop_duplicates df) /\
  (nrows (drop_duplicates df) <= nrows df)%nat.
Proof.
  destruct (duplicated_drop_duplicates df Hwf) as [Hrows _].
  pose proof (select_rows_all _ _ (drop_duplicates_mask_all df Hwf)) as Hall.
  fold (drop_duplicates df) in Hall. rewrite count_unflagged in Hall.
  split; [|split; [exact Hall|split]].
  - intros r Hr. rewrite Hrows.
    destruct (kept_rows_cover (rows df) [] r Hr) as [r' [[[]|H] E]].
    exists r'. split; assumption.
  - apply (all_well_formed _ _ Hall).
  - destruct (drop_duplicates df) as [|c d] eqn:E; [simpl; lia|].
    rewrite <- E in *.
    destruct (all_well_formed _ _ Hall) as [_ Hn].
    rewrite Hn by (rewrite E; discriminate).
    rewrite <- (duplicated_length df). apply filter_length_le.
Qed.

Lemma drop_duplicates_covers_rows_witness :
  well_formed example_loaded /\
  well_formed (drop_duplicates example_loaded) /\
  (nrows (drop_duplicates example_loaded) <= nrows example_loaded)%nat.
Proof.
  split; [repeat constructor|].
  apply (drop_duplicates_covers_rows example_loaded).
  repeat constructor.
Defined.

(** ** When the pipeline raises (lines 85-93) *)








Lemma clean_unique (parse : string -> option Q) (df : table) :
  NoDup (map strip (columns df)) ->
  clean parse df
  = Ok (prune (map_series clip_series
                 (map_series (impute_series parse) (stage3 df)))).
Proof.
  intro H. unfold clean. rewrite (stage5_unique parse df H). reflexivity.
Qed.




(** ** The cleaned table (lines 85-104) *)

Lemma parse_all_length (parse : string -> option Q)
      (l : list (option string)) (r : list (option Q)) :
  parse_all parse l = Some r -> length r = length l.
Proof.
  intro H. pose proof (parse_all_inv parse l r H) as Hall.
  rewrite (parse_all_Some parse l Hall) in H. inversion H.
  apply length_map.
Qed.

Lemma impute_series_length (parse : string -> option Q) (s : series) :
  series_length (impute_series parse s) = series_length s.
Proof.
  unfold impute_series, coerce, series_length.
  destruct s as [l|l]; simpl to_numeric.
  - simpl. unfold fillna. rewrite !length_map. reflexivity.
  - destruct (parse_all parse l) as [r|] eqn:P; simpl; unfold fillna;
      rewrite !length_map; [apply (parse_all_length parse l r P)|reflexivity].
Qed.

Lemma clip_outliers_cells (l : list (option Q)) :
  exists g : Q -> Q,
    clip_outliers l = map (fun o => match o with
                                    | Some v => Some (g v)
                                    | None => None
                                    end) l.
Proof.
  destruct (bounds l) as [[lower upper]|] eqn:B.
  - destruct (clip_outliers_spec l lower upper B) as [m [_ [E _]]].
    exists (fun v => if Qlt_bool v lower || Qlt_bool upper v then m else v).
    rewrite E. apply map_ext. intros [v|]; simpl; [|reflexivity].
    destruct (Qlt_bool v lower || Qlt_bool upper v); reflexivity.
  - exists (fun v => v). destruct (clip_outliers_no_bounds l B) as [E _].
    rewrite E. rewrite <- (map_id l) at 1. apply map_ext.
    intros [v|]; reflexivity.
Qed.

(** Clipping keeps the missing cells where they are. *)
Lemma clip_series_missing (s : series) :
  map is_missing (cells_of (clip_series s)) = map is_missing (cells_of s).
Proof.
  destruct s as [l|l]; simpl; [|reflexivity].
  destruct (clip_outliers_cells l) as [g E]. rewrite E.
  rewrite !map_map. apply map_ext. intros [v|]; reflexivity.
Qed.

Lemma has_value_missing (s : series) :
  has_value s = existsb negb (map is_missing (cells_of s)).
Proof.
  unfold has_value. induction (cells_of s) as [|x l IH]; simpl; congruence.
Qed.

Lemma complete_missing (s : series) :
  complete s = forallb negb (map is_missing (cells_of s)).
Proof.
  unfold complete. induction (cells_of s) as [|x l IH]; simpl; congruence.
Qed.

Lemma series_length_missing (s : series) :
  series_length s = length (map is_missing (cells_of s)).
Proof. unfold series_length. rewrite length_map. reflexivity. Qed.

Lemma complete_has_value (s : series) :
  complete s = true -> series_length s <> 0%nat -> has_value s = true.
Proof.
  unfold complete, has_value, series_length.
  destruct (cells_of s) as [|x l]; simpl; [congruence|].
  rewrite andb_true_iff. intros [H _] _. rewrite H. reflexivity.
Qed.

Lemma has_value_nonempty (s : series) :
  has_value s = true -> series_length s <> 0%nat.
Proof.
  unfold has_value, series_length.
  destruct (cells_of s); simpl; [discriminate|discriminate].
Qed.

Lemma clean_series_length (parse : string -> option Q) (s : series) :
  series_length (clean_series parse s) = series_length s.
Proof.
  unfold clean_series.
  rewrite series_length_missing, clip_series_missing,
    <- series_length_missing.
  apply impute_series_length.
Qed.

Lemma clean_series_complete (parse : string -> option Q) (s : series) :
  has_value s = true -> complete (clean_series parse s) = true.
Proof.
  intro H. unfold clean_series.
  rewrite complete_missing, clip_series_missing, <- complete_missing.
  apply impute_series_complete, H.
Qed.

Lemma clean_series_has_value (parse : string -> option Q) (s : series) :
  has_value (clean_series parse s) = has_value s.
Proof.
  destruct (has_value s) eqn:H.
  - apply complete_has_value; [apply clean_series_complete, H|].
    rewrite clean_series_length. apply has_value_nonempty, H.
  - unfold clean_series.
    rewrite has_value_missing, clip_series_missing, <- has_value_missing.
    rewrite (impute_series_all_missing parse s H).
    unfold has_value. simpl. induction (series_length s); simpl; auto.
Qed.

Lemma dropna_keep_has_value (s : series) :
  Nat.ltb 0 (length (filter (fun x => negb (is_missing x)) (cells_of s)))
  = has_value s.
Proof.
  unfold has_value. induction (cells_of s) as [|x l IH]; simpl; [reflexivity|].
  destruct (negb (is_missing x)); simpl; [reflexivity|exact IH].
Qed.

Lemma is_blank_empty_string (t : string) :
  is_blank t = false -> String.eqb t "" = false.
Proof. destruct t; simpl; [discriminate|reflexivity]. Qed.

Lemma text_value_not_empty (l : list (option string)) (v : option string) :
  existsb blank_cell (map text_cell l) = false ->
  dropna l <> [] ->
  existsb not_empty_string (map text_cell (fillna v l)) = true.
Proof.
  induction l as [|[t|] l IH]; simpl; [congruence| |].
  - rewrite orb_false_iff. intros [B _] _.
    rewrite (is_blank_empty_string t B). reflexivity.
  - intros B D. rewrite (IH B D). apply orb_true_r.
Qed.

Lemma numeric_not_empty (l : list (option Q)) :
  existsb not_empty_string (map num_cell l) = has_value (NumCol l).
Proof.
  unfold has_value. simpl. induction l as [|[q|] l IH]; simpl; auto.
Qed.

(** A column that holds a value and no blank string survives line 104. *)
Lemma clean_series_not_empty (parse : string -> option Q) (s : series) :
  existsb blank_cell (cells_of s) = false -> has_value s = true ->
  existsb not_empty_string (cells_of (clean_series parse s)) = true.
Proof.
  intros B H.
  pose proof (clean_series_has_value parse s) as Hv. rewrite H in Hv.
  unfold clean_series in *.
  destruct (impute_series parse s) as [r|r] eqn:I.
  - simpl clip_series in *. simpl cells_of. rewrite numeric_not_empty.
    exact Hv.
  - simpl. unfold impute_series, coerce in I.
    destruct s as [l|l]; simpl to_numeric in I; [discriminate|].
    destruct (parse_all parse l); simpl in I; [discriminate|].
    inversion I. apply text_value_not_empty; [exact B|].
    apply has_value_text, H.
Qed.

Lemma prune_map_series (f : series -> series) (df : table) :
  (forall c, In c df ->
     has_value (f (data c)) = has_value (data c) /\
     (has_value (data c) = true ->
      existsb not_empty_string (cells_of (f (data c))) = true)) ->
  prune (map_series f df) = map_series f (valued_columns df).
Proof.
  unfold prune, convert_dtypes, drop_empty_columns, dropna_columns,
    valued_columns, map_series.
  induction df as [|c df IH]; intro H; simpl; [reflexivity|].
  destruct (H c (or_introl eq_refl)) as [H1 H2].
  rewrite dropna_keep_has_value, H1.
  assert (IH' := IH (fun c' Hc' => H c' (or_intror Hc'))).
  destruct (has_value (data c)) eqn:V; simpl.
  - rewrite (H2 eq_refl). f_equal. exact IH'.
  - exact IH'.
Qed.

Lemma stage3_no_blank (df : table) (c : column) :
  In c (stage3 df) -> existsb blank_cell (cells_of (data c)) = false.
Proof.
  unfold stage3, replace_blank. intro H. apply in_map_iff in H.
  destruct H as [c0 [<- _]]. simpl. apply replace_blank_series_no_blank.
Qed.

Lemma map_series_compose (f g : series -> series) (df : table) :
  map_series f (map_series g df) = map_series (fun s => f (g s)) df.
Proof. unfold map_series. rewrite map_map. reflexivity. Qed.

(** The value of [clean] on a frame with distinct trimmed labels. *)
Lemma clean_normal_form (parse : string -> option Q) (df : table) :
  NoDup (map strip (columns df)) ->
  clean parse df
  = Ok (map_series (clean_series parse) (valued_columns (stage3 df))).
Proof.
  intro H. rewrite (clean_unique parse df H). f_equal.
  rewrite map_series_compose. fold (clean_series parse).
  change (fun s => clip_series (impute_series parse s))
    with (clean_series parse).
  apply prune_map_series. intros c Hc. split.
  - apply clean_series_has_value.
  - apply clean_series_not_empty. apply (stage3_no_blank df c Hc).
Qed.

Lemma complete_isnull_sum (s : series) :
  complete s = true -> isnull_sum s = 0%nat.
Proof.
  unfold complete, isnull_sum.
  induction (cells_of s) as [|x l IH]; simpl; [reflexivity|].
  rewrite andb_true_iff. intros [Hx Hl].
  destruct (is_missing x); [discriminate|apply IH, Hl].
Qed.

Lemma cleaned_columns_complete (parse : string -> option Q) (df : table) :
  Forall (fun c => complete (data c) = true)
         (map_series (clean_series parse) (valued_columns df)).
Proof.
  unfold map_series, valued_columns. rewrite Forall_map, Forall_forall.
  intros c Hc. apply filter_In in Hc. simpl.
  apply clean_series_complete, Hc.
Qed.

Lemma complete_columns_no_missing (df : table) :
  Forall (fun c => complete (data c) = true) df -> missing_cells df = 0%nat.
Proof.
  induction 1 as [|c df Hc _ IH]; simpl; [reflexivity|].
  rewrite (complete_isnull_sum _ Hc), IH. reflexivity.
Qed.

Lemma quality_no_missing (df : table) :
  missing_cells df = 0%nat ->
  (size df = 0%nat -> quality df = FNaN) /\
  (size df <> 0%nat -> f_eq (quality df) (FNum 100)).
Proof.
  intro M. unfold quality, np_true_divide. rewrite M. split; intro S.
  - rewrite S. reflexivity.
  - destruct (Z.of_nat (size df) =? 0)%Z eqn:E;
      [apply Z.eqb_eq in E; lia|].
    simpl. unfold Qdiv. rewrite Qmult_0_l. reflexivity.
Qed.



(** X8.  With distinct trimmed labels the cleaned table has no missing
    cell, so the score after cleaning is 100 whenever the cleaned table has
    a cell. *)
Theorem cleaned_table_has_no_missing_cell
        (parse : string -> option Q) (df : table)
        (Hnames : NoDup (map strip (columns df))) :
  exists c,
    clean parse df = Ok c /\
    Forall (fun col => complete (data col) = true) c /\
    missing_cells c = 0%nat /\
    (size c <> 0%nat -> f_eq (quality c) (FNum 100)).
Proof.
  eexists. split; [apply clean_normal_form, Hnames|].
  pose proof (cleaned_columns_complete parse (stage3 df)) as H.
  split; [exact H|].
  pose proof (complete_columns_no_missing _ H) as M.
  split; [exact M|]. apply quality_no_missing, M.
Qed.

Lemma cleaned_table_has_no_missing_cell_witness :
  NoDup (map strip (columns example_loaded)) /\
  exists c, clean parse_integer example_loaded = Ok c /\
            missing_cells c = 0%nat.
Proof.
  assert (H : NoDup (map strip (columns example_loaded)))
    by distinct_labels.
  split; [exact H|].
  destruct (cleaned_table_has_no_missing_cell parse_integer example_loaded H)
    as [c [E [_ [M _]]]].
  exists c. split; assumption.
Defined.

(** *** Shape *)

Lemma rows_strip_columns (df : table) : rows (strip_columns df) = rows df.
Proof.
  unfold rows, strip_columns.
  assert (N : nrows (map (fun c => mkColumn (strip (name c)) (data c)) df)
              = nrows df) by (destruct df; reflexivity).
  rewrite N. apply map_ext. intro i. unfold row_at. rewrite map_map.
  reflexivity.
Qed.

Lemma duplicated_strip_columns (df : table) :
  duplicated (strip_columns df) = duplicated df.
Proof. unfold duplicated. rewrite rows_strip_columns. reflexivity. Qed.

Lemma stage3_lengths (df : table) :
  well_formed df ->
  Forall (fun c => series_length (data c)
                   = length (filter negb (duplicated df))) (stage3 df).
Proof.
  intro Hwf.
  assert (Hwf' : well_formed (strip_columns df)).
  { unfold well_formed, strip_columns in *. rewrite Forall_map. simpl.
    assert (N : nrows (map (fun c => mkColumn (strip (name c)) (data c)) df)
                = nrows df) by (destruct df; reflexivity).
    rewrite N. exact Hwf. }
  pose proof (select_rows_all _ _ (drop_duplicates_mask_all _ Hwf')) as Hall.
  fold (drop_duplicates (strip_columns df)) in Hall.
  rewrite count_unflagged, duplicated_strip_columns in Hall.
  unfold stage3, replace_blank. rewrite Forall_map.
  eapply Forall_impl; [|exact Hall]. intros c Hc. simpl.
  rewrite replace_blank_series_length. exact Hc.
Qed.

Lemma cleaned_lengths (parse : string -> option Q) (df : table) (n : nat) :
  Forall (fun c => series_length (data c) = n) df ->
  Forall (fun c => series_length (data c) = n)
         (map_series (clean_series parse) (valued_columns df)).
Proof.
  intro H. unfold map_series, valued_columns. rewrite Forall_map.
  rewrite Forall_forall in *. intros c Hc. apply filter_In in Hc. simpl.
  rewrite clean_series_length. apply H, Hc.
Qed.

(** X9.  Cleaning changes the number of rows by deduplication only: with
    columns of equal length and distinct trimmed labels, every column of
    the cleaned table has one cell per unflagged row of the input, and the
    cleaned table is rectangular. *)
Theorem cleaned_table_shape
        (parse : string -> option Q) (df : table)
        (Hwf : well_formed df)
        (Hnames : NoDup (map strip (columns df))) :
  exists c,
    clean parse df = Ok c /\
    Forall (fun col => series_length (data col)
                       = length (filter negb (duplicated df))) c /\
    well_formed c /\
    (c <> [] -> nrows c = nrows (drop_duplicates df)) /\
    (ncols c <= ncols df)%nat.
Proof.
  eexists. split; [apply clean_normal_form, Hnames|].
  pose proof (cleaned_lengths parse _ _ (stage3_lengths df Hwf)) as H.
  split; [exact H|]. destruct (all_well_formed _ _ H) as [W N].
  split; [exact W|]. split.
  - intro Hne. rewrite (N Hne).
    pose proof (select_rows_all _ _ (drop_duplicates_mask_all _ Hwf)) as Hall.
    fold (drop_duplicates df) in Hall. rewrite count_unflagged in Hall.
    destruct (all_well_formed _ _ Hall) as [_ N'].
    symmetry. apply N'.
    intro E. apply Hne. unfold drop_duplicates, select_rows in E.
    apply map_eq_nil in E. subst df. reflexivity.
  - unfold ncols, map_series, valued_columns, stage3, replace_blank,
      drop_duplicates, select_rows, strip_columns.
    rewrite length_map.
    eapply Nat.le_trans; [apply filter_length_le|].
    rewrite !length_map. lia.
Qed.

Lemma cleaned_table_shape_witness :
  well_formed example_loaded /\
  NoDup (map strip (columns example_loaded)) /\
  exists c, clean parse_integer example_loaded = Ok c /\ well_formed c.
Proof.
  assert (Hwf : well_formed example_loaded) by (repeat constructor).
  assert (H : NoDup (map strip (columns example_loaded)))
    by distinct_labels.
  split; [exact Hwf|]. split; [exact H|].
  destruct (cleaned_table_shape parse_integer example_loaded Hwf H)
    as [c [E [_ [W _]]]].
  exists c. split; assumption.
Defined.

(** *** A table without data rows *)

Lemma empty_series_no_value (s : series) :
  series_length s = 0%nat -> has_value s = false.
Proof.
  unfold series_length, has_value.
  destruct (cells_of s); simpl; [reflexivity|discriminate].
Qed.

Lemma valued_columns_none (df : table) :
  Forall (fun c => series_length (data c) = 0%nat) df ->
  valued_columns df = [].
Proof.
  unfold valued_columns. induction 1 as [|c df Hc _ IH]; simpl; auto.
  rewrite (empty_series_no_value _ Hc). exact IH.
Qed.

(** X10.  A table with a header and no data row is cleaned to a table
    without columns: every column is dropped by line 103. *)
Theorem clean_without_rows
        (parse : string -> option Q) (df : table)
        (Hwf : well_formed df) (Hrows : nrows df = 0%nat)
        (Hnames : NoDup (map strip (columns df))) :
  clean parse df = Ok [].
Proof.
  rewrite (clean_normal_form parse df Hnames).
  rewrite valued_columns_none; [reflexivity|].
  pose proof (stage3_lengths df Hwf) as H.
  assert (E : length (filter negb (duplicated df)) = 0%nat).
  { pose proof (filter_length_le negb (duplicated df)) as L.
    rewrite duplicated_length, Hrows in L. lia. }
  rewrite E in H. exact H.
Qed.

Lemma clean_without_rows_witness :
  well_formed header_only /\ nrows header_only = 0%nat /\
  clean parse_integer header_only = Ok [].
Proof.
  split; [repeat constructor|]. split; [reflexivity|].
  apply (clean_without_rows parse_integer header_only).
  - repeat constructor.
  - reflexivity.
  - distinct_labels.
Defined.

(** ** The improvement (line 118) *)

(** X11.  When the table and the cleaned table both have a cell, the
    improvement is the number 100 * missing / total of the table as
    loaded: it is never negative and at most 100. *)
Theorem improvement_is_share_of_missing
        (parse : string -> option Q) (df : table)
        (Hwf : well_formed df)
        (Hnames : NoDup (map strip (columns df)))
        (Hcells : size df <> 0%nat) :
  exists c,
    clean parse df = Ok c /\
    (size c <> 0%nat ->
     exists q,
       f_sub (quality c) (quality df) = FNum q /\
       q == 100 * (inject_Z (Z.of_nat (missing_cells df))
                   / inject_Z (Z.of_nat (size df))) /\
       0 <= q /\ q <= 100).
Proof.
  eexists. split; [apply clean_normal_form, Hnames|]. intro Hc.
  set (c := map_series (clean_series parse) (valued_columns (stage3 df)))
    in *.
  pose proof (complete_columns_no_missing _
                (cleaned_columns_complete parse (stage3 df))) as M.
  fold c in M.
  pose proof (missing_cells_le_size df Hwf) as Hle.
  pose proof (ratio_in_unit_interval _ _ Hle Hcells) as [R0 R1].
  unfold quality, np_true_divide. rewrite M.
  destruct (Z.of_nat (size c) =? 0)%Z eqn:E1;
    [apply Z.eqb_eq in E1; lia|].
  destruct (Z.of_nat (size df) =? 0)%Z eqn:E2;
    [apply Z.eqb_eq in E2; lia|].
  simpl. eexists. split; [reflexivity|].
  set (r := inject_Z (Z.of_nat (missing_cells df))
            / inject_Z (Z.of_nat (size df))) in *.
  assert (Z0 : inject_Z 0 / inject_Z (Z.of_nat (size c)) == 0)
    by (unfold Qdiv; apply Qmult_0_l).
  rewrite Z0. split; [|split]; lra.
Qed.

Lemma improvement_is_share_of_missing_witness :
  well_formed example_loaded /\ size example_loaded <> 0%nat /\
  exists c, clean parse_integer example_loaded = Ok c.
Proof.
  assert (Hwf : well_formed example_loaded) by (repeat constructor).
  assert (H : NoDup (map strip (columns example_loaded)))
    by distinct_labels.
  assert (S : size example_loaded <> 0%nat) by (vm_compute; discriminate).
  split; [exact Hwf|]. split; [exact S|].
  destruct (improvement_is_share_of_missing parse_integer example_loaded
              Hwf H S) as [c [E _]].
  exists c. exact E.
Defined.

(** ** The score (lines 45-47) *)

(** X12.  On a table with a cell the score is 100 exactly when no cell is
    missing and 0 exactly when every cell is missing. *)
Theorem quality_extremes (df : table)
        (Hwf : well_formed df) (Hcells : size df <> 0%nat) :
  (f_eq (quality df) (FNum 100) <-> missing_cells df = 0%nat) /\
  (f_eq (quality df) (FNum 0) <-> missing_cells df = size df).
Proof.
  pose proof (missing_cells_le_size df Hwf) as Hle.
  unfold quality, np_true_divide.
  destruct (Z.of_nat (size df) =? 0)%Z eqn:E;
    [apply Z.eqb_eq in E; lia|].
  simpl.
  assert (Hpos : 0 < inject_Z (Z.of_nat (size df))).
  { change 0 with (inject_Z 0). rewrite <- Zlt_Qlt. lia. }
  set (m := inject_Z (Z.of_nat (missing_cells df))).
  set (t := inject_Z (Z.of_nat (size df))) in *.
  assert (Hm : m == 0 <-> missing_cells df = 0%nat).
  { subst m. change 0 with (inject_Z 0). rewrite inject_Z_injective. lia. }
  assert (Ht : m == t <-> missing_cells df = size df).
  { subst m t. rewrite inject_Z_injective. lia. }
  assert (D : m / t * t == m) by (field; lra).
  split.
  - rewrite <- Hm. split; intro H.
    + assert (m / t == 0) by lra. rewrite <- D, H0. lra.
    + rewrite H. unfold Qdiv. rewrite Qmult_0_l. lra.
  - rewrite <- Ht. split; intro H.
    + assert (m / t == 1) by lra. rewrite <- D, H0. lra.
    + rewrite H. assert (t / t == 1) by (field; lra). lra.
Qed.

Lemma quality_extremes_witness :
  well_formed example_cleaned /\ size example_cleaned <> 0%nat /\
  f_eq (quality example_cleaned) (FNum 100).
Proof.
  assert (Hwf : well_formed example_cleaned) by (repeat constructor).
  assert (S : size example_cleaned <> 0%nat) by (vm_compute; discriminate).
  split; [exact Hwf|]. split; [exact S|].
  destruct (quality_extremes example_cleaned Hwf S) as [H _].
  apply H. reflexivity.
Defined.

(** ** Outliers when the quartiles coincide (lines 97-100) *)

(** X13.  When Q1 = Q3 the two bounds coincide with the median, and the
    clipped column is constant: every value that differs from the median
    has been replaced by it. *)
Theorem clip_without_spread_is_constant
        (l : list (option Q)) (q1 q3 : Q)
        (H1 : quantile (1 # 4) l = Some q1)
        (H3 : quantile (3 # 4) l = Some q3)
        (Hiqr : q3 - q1 == 0) :
  exists m,
    median l = Some m /\ m == q1 /\
    bounds l = Some (q1 - (3 # 2) * (q3 - q1), q3 + (3 # 2) * (q3 - q1)) /\
    forall v, In (Some v) (clip_outliers l) -> v == m.
Proof.
  assert (B : bounds l
              = Some (q1 - (3 # 2) * (q3 - q1), q3 + (3 # 2) * (q3 - q1))).
  { unfold bounds. rewrite H1, H3. reflexivity. }
  destruct (clip_outliers_spec l _ _ B) as [m [Hm [_ Hin]]].
  destruct (quartiles_around_median l q1 q3 m H1 H3 Hm) as [L U].
  exists m. split; [exact Hm|]. split; [apply Qle_antisym; lra|].
  split; [exact B|]. intros v Hv. destruct (Hin v Hv) as [Lv Uv].
  apply Qle_antisym; lra.
Qed.

Lemma clip_without_spread_is_constant_witness :
  exists m,
    median [Some 5; Some 5; Some 5; Some 5; Some 9] = Some m /\
    forall v,
      In (Some v) (clip_outliers [Some 5; Some 5; Some 5; Some 5; Some 9]) ->
      v == m.
Proof.
  assert (Hiqr : forall q1 q3,
             quantile (1 # 4) [Some 5; Some 5; Some 5; Some 5; Some 9]
             = Some q1 ->
             quantile (3 # 4) [Some 5; Some 5; Some 5; Some 5; Some 9]
             = Some q3 ->
             q3 - q1 == 0).
  { intros q1 q3 H1 H3. vm_compute in H1, H3.
    inversion H1; inversion H3; subst. reflexivity. }
  destruct (clip_without_spread_is_constant
              [Some 5; Some 5; Some 5; Some 5; Some 9] _ _
              eq_refl eq_refl (Hiqr _ _ eq_refl eq_refl))
    as [m [Hm [_ [_ H]]]].
  exists m. split; assumption.
Defined.

(** ** A second imputation (lines 85-93) *)









(** ** The downloads (lines 174-192) *)

(** X15.  The two downloads are offered together and only by a run that
    ends without exception: the PDF first, then the CSV of the table that
    was scored, the PDF carrying that table's shape and the two scores. *)
Theorem downloads_only_after_success
        (parse : string -> option Q) (gc : prompt -> result string)
        (df : table) :
  (existsb is_download (widgets (script parse gc df)) = true <->
   outcome (script parse gc df) = Ok tt) /\
  (outcome (script parse gc df) = Ok tt ->
   exists c r,
     clean parse df = Ok c /\
     gc (SummaryPrompt (quality df) (quality c) (columns c)) = Ok r /\
     filter is_download (widgets (script parse gc df))
     = [DownloadButton
          (PdfFile (mkReport (nrows c) (ncols c) (quality df) (quality c)
                             (f_sub (quality c) (quality df)) r));
        DownloadButton (CsvFile c)]).
Proof.
  rewrite script_cases. cbv zeta.
  destruct (gc (analysis_prompt df)) as [a|e]; simpl;
    [|split; [split|]; discriminate].
  destruct (clean parse df) as [c|e]; simpl;
    [|split; [split|]; discriminate].
  destruct (gc (SummaryPrompt (quality df) (quality c) (columns c)))
    as [r|e] eqn:G; simpl; [|split; [split|]; discriminate].
  split; [split; reflexivity|].
  intros _. exists c, r. repeat split. exact G.
Qed.

Lemma downloads_only_after_success_witness :
  outcome (script parse_integer service_up example_loaded) = Ok tt /\
  existsb is_download
          (widgets (script parse_integer service_up example_loaded)) = true.
Proof.
  split; [reflexivity|].
  destruct (downloads_only_after_success parse_integer service_up
              example_loaded) as [H _].
  apply H. reflexivity.
Defined.

(** ** The mode and the order of the rows (line 93) *)

Lemma dropna_Permutation {A : Type} (l l' : list (option A)) :
  Permutation l l' -> Permutation (dropna l) (dropna l').
Proof.
  induction 1 as [|[x|] l l' _ IH|[x|] [y|] l|l1 l2 l3 _ IH1 _ IH2]; simpl;
    auto using perm_swap.
  eapply perm_trans; eassumption.
Qed.

Lemma count_of_Permutation (s : string) (l l' : list string) :
  Permutation l l' -> count_of s l = count_of s l'.
Proof.
  unfold count_of.
  induction 1 as [|x l l' _ IH|x y l|l1 l2 l3 _ IH1 _ IH2]; simpl; auto.
  - destruct (String.eqb s x); simpl; congruence.
  - destruct (String.eqb s x), (String.eqb s y); reflexivity.
  - congruence.
Qed.

Lemma fold_max_Permutation (f : string -> nat) (l l' : list string) :
  Permutation l l' ->
  fold_right (fun s m => Nat.max (f s) m) O l
  = fold_right (fun s m => Nat.max (f s) m) O l'.
Proof.
  induction 1 as [|x l l' _ IH|x y l|l1 l2 l3 _ IH1 _ IH2]; simpl; auto.
  - lia.
  - congruence.
Qed.

Lemma fold_max_ext (f g : string -> nat) (l : list string) :
  (forall s, f s = g s) ->
  fold_right (fun s m => Nat.max (f s) m) O l
  = fold_right (fun s m => Nat.max (g s) m) O l.
Proof.
  intro H. induction l as [|x l IH]; simpl; [reflexivity|].
  rewrite H, IH. reflexivity.
Qed.

Lemma max_count_Permutation (l l' : list string) :
  Permutation l l' -> max_count l = max_count l'.
Proof.
  intro H. unfold max_count.
  rewrite (fold_max_Permutation _ l l' H).
  apply fold_max_ext. intro s. apply count_of_Permutation, H.
Qed.

Lemma most_frequent_NoDup (vals : list string) : NoDup (most_frequent vals).
Proof. unfold most_frequent. apply NoDup_filter, NoDup_nodup. Qed.

(** A sorted list without repetition is determined by its elements. *)
Lemma sorted_unique (l1 : list string) :
  forall l2,
    StronglySorted (lifted String.leb) l1 ->
    StronglySorted (lifted String.leb) l2 ->
    NoDup l1 -> NoDup l2 ->
    (forall x, In x l1 <-> In x l2) ->
    l1 = l2.
Proof.
  induction l1 as [|x1 l1 IH]; intros [|x2 l2] S1 S2 N1 N2 E.
  - reflexivity.
  - exfalso. apply (proj2 (E x2)). left. reflexivity.
  - exfalso. apply (proj1 (E x1)). left. reflexivity.
  - inversion S1 as [|? ? S1' A1]; inversion S2 as [|? ? S2' A2]; subst.
    inversion N1 as [|? ? F1 N1']; inversion N2 as [|? ? F2 N2']; subst.
    rewrite Forall_forall in A1, A2.
    assert (x1 = x2) as ->.
    { destruct (proj1 (E x1) (or_introl eq_refl)) as [H|H]; [auto|].
      destruct (proj2 (E x2) (or_introl eq_refl)) as [H'|H']; [auto|].
      apply String.leb_antisym; [apply A1, H'|apply A2, H]. }
    f_equal. apply IH; auto. intro x. split; intro H.
    + destruct (proj1 (E x) (or_intror H)) as [<-|H']; [contradiction|auto].
    + destruct (proj2 (E x) (or_intror H)) as [<-|H']; [contradiction|auto].
Qed.

Lemma mode_Permutation (l l' : list (option string)) :
  Permutation l l' -> mode l = mode l'.
Proof.
  intro H. pose proof (dropna_Permutation l l' H) as Hd.
  unfold mode. fold (most_frequent (dropna l)) (most_frequent (dropna l')).
  apply sorted_unique.
  - apply (sort_by_sorted String.leb String.leb_total string_leb_trans).
  - apply (sort_by_sorted String.leb String.leb_total string_leb_trans).
  - eapply Permutation_NoDup; [apply sort_by_perm|apply most_frequent_NoDup].
  - eapply Permutation_NoDup; [apply sort_by_perm|apply most_frequent_NoDup].
  - intro x. rewrite !sort_by_In, !most_frequent_In.
    rewrite (count_of_Permutation x _ _ Hd), (max_count_Permutation _ _ Hd).
    split; intros [Hin Hc]; (split; [|exact Hc]).
    + eapply Permutation_in; eassumption.
    + eapply Permutation_in; [apply Permutation_sym|]; eassumption.
Qed.

(** X16.  The value that fills a textual column does not depend on the
    order of the rows: two columns with the same cells in a different
    order have the same sorted modes and the same fill value, and are
    filled cell by cell alike. *)
Theorem text_fill_independent_of_row_order
        (l l' : list (option string)) (Hperm : Permutation l l') :
  mode l = mode l' /\
  text_fill_value l = text_fill_value l' /\
  exists v,
    fill_series (TextCol l) = TextCol (fillna (Some v) l) /\
    fill_series (TextCol l') = TextCol (fillna (Some v) l').
Proof.
  pose proof (mode_Permutation l l' Hperm) as E.
  split; [exact E|].
  assert (E' : text_fill_value l = text_fill_value l')
    by (unfold text_fill_value; rewrite E; reflexivity).
  split; [exact E'|].
  exists (text_fill_value l). split; [reflexivity|].
  rewrite E'. reflexivity.
Qed.

Lemma text_fill_independent_of_row_order_witness :
  Permutation [Some "b"; None; Some "a"]%string
              [None; Some "b"; Some "a"]%string /\
  text_fill_value [Some "b"; None; Some "a"]%string
  = text_fill_value [None; Some "b"; Some "a"]%string.
Proof.
  assert (H : Permutation [Some "b"; None; Some "a"]%string
                          [None; Some "b"; Some "a"]%string)
    by apply perm_swap.
  split; [exact H|].
  apply (text_fill_independent_of_row_order _ _ H).
Defined.

(** ** The median after imputation (lines 91 and 100) *)

Lemma median_sorted_values (l : list (option Q)) :
  median l = median_of_sorted (sorted_values l).
Proof. reflexivity. Qed.

Lemma sorted_head_le (x : Q) (xs : list Q) :
  StronglySorted Qle_b (x :: xs) -> forall y, In y xs -> x <= y.
Proof.
  intros H y Hy. inversion H as [|? ? _ Hall]; subst.
  rewrite Forall_forall in Hall. apply Qle_bool_iff, Hall, Hy.
Qed.

Lemma sorted_tail (x : Q) (xs : list Q) :
  StronglySorted Qle_b (x :: xs) -> StronglySorted Qle_b xs.
Proof. intro H. inversion H; assumption. Qed.

Lemma count_above_all (m : Q) (xs : list Q) :
  (forall y, In y xs -> m < y) -> count_above m xs = length xs.
Proof.
  unfold count_above. induction xs as [|x xs IH]; intro H; simpl; auto.
  assert (Qlt_bool m x = true) as -> by (apply Qlt_bool_true, H; left; auto).
  simpl. f_equal. apply IH. intros y Hy. apply H. right. exact Hy.
Qed.

(** In a sorted list, a position that the values below [m] cannot reach
    holds a value at least [m]. *)
Lemma sorted_nth_ge (m : Q) (xs : list Q) :
  StronglySorted Qle_b xs ->
  forall i, (i < length xs)%nat -> (count_below m xs <= i)%nat ->
            m <= nth i xs 0.
Proof.
  unfold count_below.
  induction xs as [|x xs IH]; intros S i Hi Hc; simpl in Hi; [lia|].
  simpl in Hc. destruct (Qlt_bool x m) eqn:C; simpl in Hc.
  - destruct i as [|i]; [lia|]. simpl.
    apply IH; [apply (sorted_tail x), S|lia|lia].
  - apply Qlt_bool_false in C. destruct i as [|i]; simpl; [exact C|].
    eapply Qle_trans; [exact C|].
    apply (sorted_head_le x xs S). apply nth_In. lia.
Qed.

(** ... and a position that leaves room for the values above [m] holds a
    value at most [m]. *)
Lemma sorted_nth_le_bound (m : Q) (xs : list Q) :
  StronglySorted Qle_b xs ->
  forall i, (i < length xs)%nat ->
            (count_above m xs <= length xs - 1 - i)%nat ->
            nth i xs 0 <= m.
Proof.
  induction xs as [|x xs IH]; intros S i Hi Hc; simpl in Hi; [lia|].
  assert (Hcons : count_above m (x :: xs)
                  = ((if Qlt_bool m x then 1 else 0) + count_above m xs)%nat).
  { unfold count_above. simpl. destruct (Qlt_bool m x); reflexivity. }
  rewrite Hcons in Hc. simpl length in Hc.
  destruct i as [|i]; simpl.
  - destruct (Qlt_bool m x) eqn:C; [|apply Qlt_bool_false, C].
    exfalso. apply Qlt_bool_true in C.
    rewrite count_above_all in Hc; [lia|].
    intros y Hy. eapply Qlt_le_trans; [exact C|].
    apply (sorted_head_le x xs S y Hy).
  - apply IH; [apply (sorted_tail x), S|lia|].
    destruct (Qlt_bool m x); lia.
Qed.

Lemma count_below_bound (m : Q) (xs : list Q) :
  forall k,
    (forall j, (k <= j)%nat -> (j < length xs)%nat -> m <= nth j xs 0) ->
    (count_below m xs <= k)%nat.
Proof.
  unfold count_below.
  induction xs as [|x xs IH]; intros k H; simpl; [lia|].
  destruct k as [|k].
  - assert (Qlt_bool x m = false) as ->
        by (apply Qlt_bool_false, (H O); simpl; lia).
    apply IH. intros j _ Hj. apply (H (S j)); simpl; lia.
  - assert (length (filter (fun y => Qlt_bool y m) xs) <= k)%nat.
    { apply IH. intros j Hk Hj. apply (H (S j)); simpl; lia. }
    destruct (Qlt_bool x m); simpl; lia.
Qed.

Lemma count_above_bound (m : Q) (xs : list Q) :
  forall k,
    (k <= length xs)%nat ->
    (forall j, (j < k)%nat -> nth j xs 0 <= m) ->
    (count_above m xs <= length xs - k)%nat.
Proof.
  unfold count_above.
  induction xs as [|x xs IH]; intros k Hk H; simpl; [lia|].
  destruct k as [|k].
  - pose proof (filter_length_le (fun y => Qlt_bool m y) xs).
    destruct (Qlt_bool m x); simpl; lia.
  - assert (Qlt_bool m x = false) as ->
        by (apply Qlt_bool_false, (H O); lia).
    simpl in Hk. apply IH; [lia|].
    intros j Hj. apply (H (S j)). lia.
Qed.

Lemma half_even (n j : nat) : n = (2 * j)%nat -> (n / 2 = j)%nat.
Proof. intros ->. rewrite Nat.mul_comm. apply Nat.div_mul. discriminate. Qed.

Lemma half_odd (n j : nat) : n = (2 * j + 1)%nat -> (n / 2 = j)%nat.
Proof.
  intros ->. rewrite Nat.add_comm, Nat.mul_comm.
  rewrite Nat.div_add by discriminate. reflexivity.
Qed.

(** The two shapes of the median of a sorted list. *)
Lemma median_of_sorted_cases (xs : list Q) (m : Q) :
  median_of_sorted xs = Some m ->
  (exists j, length xs = (2 * j + 1)%nat /\ m = nth j xs 0) \/
  (exists j, length xs = (2 * j + 2)%nat /\
             m = (nth j xs 0 + nth (S j) xs 0) / 2).
Proof.
  unfold median_of_sorted. cbv zeta.
  destruct (length xs) as [|n] eqn:L; [discriminate|].
  destruct (Nat.even (S n)) eqn:Ev; intro H.
  - right. apply Nat.even_spec in Ev. destruct Ev as [j Ej].
    rewrite (half_even _ _ Ej) in H. destruct j as [|j]; [lia|].
    exists j. split; [lia|].
    replace (S j - 1)%nat with j in H by lia. congruence.
  - left.
    assert (Od : Nat.odd (S n) = true)
      by (rewrite <- Nat.negb_even, Ev; reflexivity).
    apply Nat.odd_spec in Od. destruct Od as [j Ej].
    rewrite (half_odd _ _ Ej) in H. exists j. split; [lia|congruence].
Qed.

Lemma median_of_sorted_odd (xs : list Q) (j : nat) :
  length xs = (2 * j + 1)%nat -> median_of_sorted xs = Some (nth j xs 0).
Proof.
  intro L. unfold median_of_sorted. cbv zeta. rewrite L.
  replace (2 * j + 1)%nat with (S (2 * j)) by lia.
  assert (Ev : Nat.even (S (2 * j)) = false).
  { rewrite Nat.even_succ, <- Nat.negb_even.
    rewrite Nat.even_mul. reflexivity. }
  rewrite Ev. rewrite (half_odd (S (2 * j)) j) by lia. reflexivity.
Qed.

Lemma median_of_sorted_even (xs : list Q) (j : nat) :
  length xs = (2 * j + 2)%nat ->
  median_of_sorted xs = Some ((nth j xs 0 + nth (S j) xs 0) / 2).
Proof.
  intro L. unfold median_of_sorted. cbv zeta. rewrite L.
  replace (2 * j + 2)%nat with (S (S (2 * j))) by lia.
  assert (Ev : Nat.even (S (S (2 * j))) = true).
  { change (Nat.even (S (S (2 * j)))) with (Nat.even (2 * j)).
    rewrite Nat.even_mul. reflexivity. }
  rewrite Ev. rewrite (half_even (S (S (2 * j))) (S j)) by lia.
  replace (S j - 1)%nat with j by lia. reflexivity.
Qed.

(** At most half of the values lie strictly on either side of the median. *)
Lemma median_counts (xs : list Q) (m : Q) :
  StronglySorted Qle_b xs -> median_of_sorted xs = Some m ->
  (2 * count_below m xs <= length xs)%nat /\
  (2 * count_above m xs <= length xs)%nat.
Proof.
  intros Hs H.
  destruct (median_of_sorted_cases xs m H) as [[j [L ->]]|[j [L E]]].
  - split.
    + assert (count_below (nth j xs 0%Q) xs <= j)%nat; [|lia].
      apply count_below_bound. intros i Hj Hi.
      apply sorted_nth_le; [exact Hs|lia|exact Hi].
    + assert (count_above (nth j xs 0%Q) xs <= length xs - S j)%nat; [|lia].
      apply count_above_bound; [lia|]. intros i Hi.
      apply sorted_nth_le; [exact Hs|lia|lia].
  - assert (Hmid : nth j xs 0 <= nth (S j) xs 0)
      by (apply sorted_nth_le; [exact Hs|lia|lia]).
    assert (Hlo : nth j xs 0 <= m) by (rewrite E; apply Qle_shift_div_l; lra).
    assert (Hhi : m <= nth (S j) xs 0)
      by (rewrite E; apply Qle_shift_div_r; lra).
    split.
    + assert (count_below m xs <= S j)%nat; [|lia].
      apply count_below_bound. intros i Hj Hi.
      eapply Qle_trans; [exact Hhi|].
      apply sorted_nth_le; [exact Hs|lia|exact Hi].
    + assert (count_above m xs <= length xs - S j)%nat; [|lia].
      apply count_above_bound; [lia|]. intros i Hi.
      eapply Qle_trans; [|exact Hlo].
      apply sorted_nth_le; [exact Hs|lia|lia].
Qed.

(** A value with fewer than half of the values strictly on either side is
    the median. *)
Lemma median_from_counts (xs : list Q) (m : Q) :
  StronglySorted Qle_b xs ->
  (2 * count_below m xs < length xs)%nat ->
  (2 * count_above m xs < length xs)%nat ->
  exists m', median_of_sorted xs = Some m' /\ m' == m.
Proof.
  intros Hs Hb Ha.
  destruct (Nat.Even_or_Odd (length xs)) as [[j Ej]|[j Ej]].
  - destruct j as [|j]; [lia|].
    rewrite (median_of_sorted_even xs j) by lia.
    eexists. split; [reflexivity|].
    assert (L1 : m <= nth j xs 0) by (apply sorted_nth_ge; auto; lia).
    assert (L2 : m <= nth (S j) xs 0) by (apply sorted_nth_ge; auto; lia).
    assert (U1 : nth j xs 0 <= m) by (apply sorted_nth_le_bound; auto; lia).
    assert (U2 : nth (S j) xs 0 <= m)
      by (apply sorted_nth_le_bound; auto; lia).
    assert (E1 : nth j xs 0 == m) by (apply Qle_antisym; assumption).
    assert (E2 : nth (S j) xs 0 == m) by (apply Qle_antisym; assumption).
    rewrite E1, E2. field.
  - rewrite (median_of_sorted_odd xs j) by lia.
    eexists. split; [reflexivity|].
    apply Qle_antisym.
    + apply sorted_nth_le_bound; auto; lia.
    + apply sorted_nth_ge; auto; lia.
Qed.

Lemma filter_length_Permutation {A : Type} (p : A -> bool) (l l' : list A) :
  Permutation l l' -> length (filter p l) = length (filter p l').
Proof.
  induction 1 as [|x l l' _ IH|x y l|l1 l2 l3 _ IH1 _ IH2]; simpl; auto.
  - destruct (p x); simpl; congruence.
  - destruct (p x), (p y); reflexivity.
  - congruence.
Qed.

Lemma count_below_sorted_values (m : Q) (l : list (option Q)) :
  count_below m (sorted_values l) = count_below m (dropna l).
Proof.
  unfold count_below, sorted_values. symmetry.
  apply filter_length_Permutation, sort_by_perm.
Qed.

Lemma count_above_sorted_values (m : Q) (l : list (option Q)) :
  count_above m (sorted_values l) = count_above m (dropna l).
Proof.
  unfold count_above, sorted_values. symmetry.
  apply filter_length_Permutation, sort_by_perm.
Qed.

Lemma Qlt_bool_irrefl (m : Q) : Qlt_bool m m = false.
Proof. apply Qlt_bool_false, Qle_refl. Qed.

Lemma count_below_fillna (m : Q) (l : list (option Q)) :
  count_below m (dropna (fillna (Some m) l)) = count_below m (dropna l).
Proof.
  unfold count_below. induction l as [|[x|] l IH]; simpl; auto.
  - destruct (Qlt_bool x m); simpl; congruence.
  - rewrite Qlt_bool_irrefl. exact IH.
Qed.

Lemma count_above_fillna (m : Q) (l : list (option Q)) :
  count_above m (dropna (fillna (Some m) l)) = count_above m (dropna l).
Proof.
  unfold count_above. induction l as [|[x|] l IH]; simpl; auto.
  - destruct (Qlt_bool m x); simpl; congruence.
  - rewrite Qlt_bool_irrefl. exact IH.
Qed.

Lemma dropna_fillna_length {A : Type} (v : A) (l : list (option A)) :
  length (dropna (fillna (Some v) l)) = length l.
Proof. induction l as [|[x|] l IH]; simpl; congruence. Qed.

Lemma dropna_length_le {A : Type} (l : list (option A)) :
  (length (dropna l) <= length l)%nat.
Proof. induction l as [|[x|] l IH]; simpl; lia. Qed.

Lemma fillna_nothing_missing {A : Type} (v : option A) (l : list (option A)) :
  length (dropna l) = length l -> fillna v l = l.
Proof.
  induction l as [|[x|] l IH]; simpl; intro H; [reflexivity| |].
  - f_equal. apply IH. lia.
  - pose proof (dropna_length_le l). lia.
Qed.

(** X17.  Imputing with the median does not move the median: the median
    of the column after line 91 equals the median that filled it, so the
    value line 100 writes over an outlier is the value line 91 wrote into
    the missing cells. *)
Theorem median_unchanged_by_imputation
        (l : list (option Q)) (m : Q) (Hm : median l = Some m) :
  (exists m', median (fillna (median l) l) = Some m' /\ m' == m) /\
  (forall lower upper,
     bounds (fillna (median l) l) = Some (lower, upper) ->
     exists m',
       m' == m /\
       clip_outliers (fillna (median l) l)
       = map (clip_cell lower upper m') (fillna (median l) l)).
Proof.
  assert (Main : exists m', median (fillna (median l) l) = Some m' /\ m' == m).
  { rewrite Hm.
    destruct (Nat.eq_dec (length (dropna l)) (length l)) as [E|N].
    - rewrite (fillna_nothing_missing _ l E). exists m.
      split; [exact Hm|reflexivity].
    - pose proof (dropna_length_le l) as Hle.
      rewrite median_sorted_values in Hm.
      destruct (median_counts _ m (sorted_values_sorted l) Hm) as [Hb Ha].
      rewrite count_below_sorted_values in Hb.
      rewrite count_above_sorted_values in Ha.
      rewrite sorted_values_length in Hb, Ha.
      rewrite median_sorted_values.
      apply median_from_counts.
      + apply sorted_values_sorted.
      + rewrite count_below_sorted_values, count_below_fillna,
          sorted_values_length, dropna_fillna_length. lia.
      + rewrite count_above_sorted_values, count_above_fillna,
          sorted_values_length, dropna_fillna_length. lia. }
  split; [exact Main|].
  intros lower upper B. destruct Main as [m' [Hm' E]].
  destruct (clip_outliers_spec _ lower upper B) as [m'' [Hm'' [C _]]].
  exists m''. split; [|exact C]. congruence.
Qed.

Lemma median_unchanged_by_imputation_witness :
  median [Some 10; None; Some 12; Some 1000; None] = Some 12 /\
  exists m',
    median (fillna (median [Some 10; None; Some 12; Some 1000; None])
                   [Some 10; None; Some 12; Some 1000; None]) = Some m' /\
    m' == 12.
Proof.
  split; [reflexivity|].
  apply (median_unchanged_by_imputation
           [Some 10; None; Some 12; Some 1000; None] 12).
  reflexivity.
Defined.

(** ** Deduplication before blank normalization (lines 82-83) *)

Lemma cells_of_replace_blank (s : series) :
  cells_of (replace_blank_series s) = map normalize_cell (cells_of s).
Proof.
  destruct s as [l|l]; simpl; rewrite !map_map; apply map_ext.
  - intros [q|]; reflexivity.
  - intros [t|]; simpl; [destruct (is_blank t)|]; reflexivity.
Qed.

Lemma row_at_replace_blank (df : table) (i : nat) :
  row_at (replace_blank df) i = map normalize_cell (row_at df i).
Proof.
  unfold row_at, replace_blank. rewrite !map_map. apply map_ext.
  intro c. unfold cell_at. simpl. rewrite cells_of_replace_blank.
  change Missing with (normalize_cell Missing) at 1. apply map_nth.
Qed.

Lemma nrows_replace_blank (df : table) : nrows (replace_blank df) = nrows df.
Proof.
  destruct df as [|c df]; simpl; [reflexivity|].
  apply replace_blank_series_length.
Qed.

(** X18.  The blank normalization runs after the deduplication and is not
    followed by another one: two rows that survived [drop_duplicates] and
    agree once their blank strings are missing stay both in the table, the
    later one being a duplicate of the earlier. *)
Theorem blank_variants_stay_duplicated
        (df : table) (i j : nat)
        (Hij : (i < j)%nat) (Hj : (j < nrows (drop_duplicates df))%nat)
        (Heq : row_eqb (map normalize_cell (row_at (drop_duplicates df) j))
                       (map normalize_cell (row_at (drop_duplicates df) i))
               = true) :
  nrows (replace_blank (drop_duplicates df)) = nrows (drop_duplicates df) /\
  row_eqb (row_at (replace_blank (drop_duplicates df)) j)
          (row_at (replace_blank (drop_duplicates df)) i) = true /\
  nth j (duplicated (replace_blank (drop_duplicates df))) false = true.
Proof.
  split; [apply nrows_replace_blank|].
  rewrite !row_at_replace_blank. split; [exact Heq|].
  unfold duplicated. apply duplicated_from_nth.
  - rewrite rows_length, nrows_replace_blank. exact Hj.
  - right. exists i. split; [exact Hij|].
    rewrite !rows_nth by (rewrite nrows_replace_blank; lia).
    rewrite !row_at_replace_blank. exact Heq.
Qed.

Lemma blank_variants_stay_duplicated_witness :
  nrows (drop_duplicates blank_variants) = 2%nat /\
  rows (stage3 blank_variants)
  = [[Text "Alice"; Missing]; [Text "Alice"; Missing]]%string /\
  nth 1 (duplicated (replace_blank (drop_duplicates blank_variants))) false
  = true.
Proof.
  split; [reflexivity|]. split; [reflexivity|].
  apply (blank_variants_stay_duplicated blank_variants 0 1).
  - lia.
  - vm_compute. lia.
  - reflexivity.
Defined.

(** ** Dead columns (lines 102-104) *)

Lemma filter_all {A : Type} (p : A -> bool) (l : list A) :
  Forall (fun x => p x = true) l -> filter p l = l.
Proof.
  induction 1 as [|x l Hx _ IH]; simpl; [reflexivity|].
  rewrite Hx, IH. reflexivity.
Qed.

Lemma prune_filter (df : table) : prune df = filter live_column df.
Proof.
  unfold prune, convert_dtypes, drop_empty_columns, dropna_columns,
    live_column.
  induction df as [|c df IH]; simpl; [reflexivity|].
  rewrite dropna_keep_has_value.
  destruct (has_value (data c)); simpl; [|exact IH].
  destruct (existsb not_empty_string (cells_of (data c))); simpl;
    congruence.
Qed.

(** X19.  The pruning keeps, in order and unchanged, exactly the columns
    that have a non-missing cell and a cell other than the empty string;
    a column without cells or with missing cells only is dropped, and so
    is a column whose values are all empty strings; a second pruning
    changes nothing. *)
Theorem prune_keeps_live_columns (df : table) :
  prune df = filter live_column df /\
  (forall c, In c (prune df) <->
     In c df /\ has_value (data c) = true /\
     existsb not_empty_string (cells_of (data c)) = true) /\
  (forall c, In c df -> series_length (data c) = 0%nat -> ~ In c (prune df)) /\
  prune (prune df) = prune df.
Proof.
  split; [apply prune_filter|]. rewrite !prune_filter.
  split; [|split].
  - intro c. rewrite filter_In. unfold live_column.
    rewrite andb_true_iff. reflexivity.
  - intros c _ L H. apply filter_In in H. destruct H as [_ H].
    unfold live_column in H.
    rewrite (empty_series_no_value _ L) in H. discriminate.
  - apply filter_all. rewrite Forall_forall. intros c H.
    apply filter_In in H. apply H.
Qed.

(** ** The text of the PDF (lines 165-169) *)

Lemma split_newline_nonempty (s : string) : split_newline s <> [].
Proof.
  induction s as [|a s IH]; simpl; [discriminate|].
  destruct (is_newline a); [discriminate|].
  destruct (split_newline s); discriminate.
Qed.

Lemma split_newline_concat (s : string) :
  String.concat (String "010" EmptyString) (split_newline s) = s.
Proof.
  induction s as [|a s IH]; simpl; [reflexivity|].
  destruct (is_newline a) eqn:N.
  - apply Ascii.eqb_eq in N. subst a.
    destruct (split_newline s) as [|x r] eqn:E;
      [exfalso; apply (split_newline_nonempty s E)|].
    simpl. simpl in IH. rewrite IH. reflexivity.
  - destruct (split_newline s) as [|x r] eqn:E;
      [exfalso; apply (split_newline_nonempty s E)|].
    simpl in *. destruct r; simpl in *; rewrite IH; reflexivity.
Qed.

Lemma split_newline_length (s : string) :
  length (split_newline s) = S (count_newlines s).
Proof.
  induction s as [|a s IH]; simpl; [reflexivity|].
  destruct (is_newline a); simpl; [rewrite IH; reflexivity|].
  destruct (split_newline s) as [|x r] eqn:E;
    [exfalso; apply (split_newline_nonempty s E)|].
  simpl in *. exact IH.
Qed.

Lemma split_newline_lines (s : string) :
  Forall (fun x => has_newline x = false) (split_newline s).
Proof.
  induction s as [|a s IH]; simpl.
  - constructor; [reflexivity|constructor].
  - destruct (is_newline a) eqn:N.
    + constructor; [reflexivity|exact IH].
    + destruct (split_newline s) as [|x r];
        [constructor; [simpl; rewrite N; reflexivity|constructor]|].
      inversion IH; subst. constructor; [simpl; rewrite N|]; assumption.
Qed.

(** X20.  The narrative is written on the PDF line by line without loss:
    the lines contain no line feed, there is one more line than there are
    line feeds in the narrative (so an empty narrative writes one empty
    line), and joining the lines with line feeds gives the narrative
    back. *)
Theorem report_lines_round_trip
        (ai_report : string) (before after improvement : fval) (df : table) :
  let r := generate_pdf_report ai_report before after improvement df in
  String.concat (String "010" EmptyString) (report_lines r) = ai_report /\
  length (report_lines r) = S (count_newlines ai_report) /\
  Forall (fun x => has_newline x = false) (report_lines r) /\
  total_rows r = nrows df /\ total_columns r = ncols df.
Proof.
  cbv zeta. unfold report_lines, generate_pdf_report. simpl narrative.
  split; [apply split_newline_concat|].
  split; [apply split_newline_length|].
  split; [apply split_newline_lines|].
  split; reflexivity.
Qed.
